(** * NodeView: the collapsible tree view controller of
      [assets/app/js/nodeview.js]

    The controller keeps a registry [nodeData] from property keys to node
    objects, a current root identifier, a counter [nextId] and the rendered
    [g.node] / [path.link] elements of its container.  Node objects are
    shared between the host, the registry and the rendered elements, so they
    live in an explicit object store and are handled through references.
    A reference always leads to an object, as in JavaScript: the store is a
    total function. *)

From Stdlib Require Import ZArith List Bool Lia.
From stdpp Require Import base option list strings pretty functions gmap.

Open Scope Z_scope.

(** ** JavaScript values used as identifiers *)

Module Js.

(** An identifier is whatever the host puts in [node.id]: nothing, a number
    or a string. *)
Inductive value :=
  | VUndef
  | VNum (n : Z)
  | VStr (s : string).

#[global] Instance value_eq_dec : EqDecision value.
Proof. solve_decision. Defined.

(** [ToBoolean]: what [v || w] and [if (v)] test. *)
Definition truthy (v : value) : bool :=
  match v with
  | VUndef => false
  | VNum n => negb (n =? 0)
  | VStr s => negb (String.eqb s "")
  end.

(** [v || w] *)
Definition or_else (v w : value) : value := if truthy v then v else w.

(** [String(v)]: the property key under which [obj[v]] reads and writes. *)
Definition to_key (v : value) : string :=
  match v with
  | VUndef => "undefined"
  | VNum n => pretty n
  | VStr s => s
  end.

(** [!b] on a flag that is [undefined] until first written. *)
Definition negate (b : option bool) : option bool :=
  match b with
  | None => Some true
  | Some b => Some (negb b)
  end.

End Js.

Export Js.

(** ** Node objects and the object store *)

(** A reference leads to an object of the host, or to one of the objects
    that every plain object inherits from [Object.prototype], named by the
    property it is found under. *)
Inductive loc :=
  | Obj (n : positive)
  | Builtin (k : string).

#[global] Instance loc_eq_dec : EqDecision loc.
Proof. solve_decision. Defined.

(** The property names of [Object.prototype]: what [{}[k]] finds for a key
    [k] that the object does not have itself. *)
Definition Object_prototype : list string :=
  ["constructor"; "__defineGetter__"; "__defineSetter__"; "hasOwnProperty";
   "__lookupGetter__"; "__lookupSetter__"; "isPrototypeOf";
   "propertyIsEnumerable"; "toString"; "valueOf"; "__proto__";
   "toLocaleString"].

(** A point as [NodeView._pos] builds it: [{x, y}]. *)
Definition pos := (Z * Z)%type.

(** The fields of a node object the controller and the layout touch.
    [kids] is the [children] array the layout walks ([nil] when the field is
    absent or empty: the layout treats both alike and deletes the empty one);
    [_children] is the controller's own field, absent until the first fetch
    resolves. *)
Record node := Node {
  id : value;
  x : option Z;
  y : option Z;
  isOpened : option bool;
  _children : option (list loc);
  kids : list loc
}.

Definition set_id (v : value) (n : node) : node :=
  Node v (x n) (y n) (isOpened n) (_children n) (kids n).
Definition set_xy (p : pos) (n : node) : node :=
  Node (id n) (Some (fst p)) (Some (snd p)) (isOpened n) (_children n) (kids n).
Definition set_isOpened (b : option bool) (n : node) : node :=
  Node (id n) (x n) (y n) b (_children n) (kids n).
Definition set__children (c : option (list loc)) (n : node) : node :=
  Node (id n) (x n) (y n) (isOpened n) c (kids n).

(** ** Rendered elements *)

(** Which selection of the latest data join an element belongs to. *)
Inductive role := InUpdate | InEnter | InExit.

#[global] Instance role_eq_dec : EqDecision role.
Proof. solve_decision. Defined.

(** A [g.node] element: its bound datum, the [transform] attribute written
    synchronously when it was created, whether an exit transition ending in
    [remove()] is the newest transition on it, and its selection. *)
Record gnode := GNode {
  g_datum : loc;
  g_transform : option pos;
  g_exiting : bool;
  g_role : role
}.

(** A [path.link] element: its bound datum [{source, target}], the projected
    end points written synchronously at creation, the exit mark and its
    selection. *)
Record plink := PLink {
  l_datum : loc * loc;
  l_d : option (pos * pos);
  l_exiting : bool;
  l_role : role
}.

(** The two orientation strategies of [NodeView.orientation]. *)
Inductive orient := TopToBottom | LeftToRight.

Record config := Config {
  c_orientation : string;
  c_nodeWidth : Z;
  c_nodeHeight : Z;
  c_duration : Z
}.

(** ** Controller state *)

Record view := View {
  cfg : config;
  handlers : gset string;
  nextId : Z;
  orientation : option orient;
  zoom : pos * Z;
  nodeSize : Z * Z;
  nodeData : gmap string loc;
  currentId : value;
  store : loc -> node;
  g_nodes : list gnode;
  path_links : list plink;
  fetches : list value
}.

Definition set_handlers (h : gset string) (v : view) : view :=
  View (cfg v) h (nextId v) (orientation v) (zoom v) (nodeSize v) (nodeData v)
       (currentId v) (store v) (g_nodes v) (path_links v) (fetches v).
Definition set_nextId (n : Z) (v : view) : view :=
  View (cfg v) (handlers v) n (orientation v) (zoom v) (nodeSize v) (nodeData v)
       (currentId v) (store v) (g_nodes v) (path_links v) (fetches v).
Definition set_zoom (z : pos * Z) (v : view) : view :=
  View (cfg v) (handlers v) (nextId v) (orientation v) z (nodeSize v) (nodeData v)
       (currentId v) (store v) (g_nodes v) (path_links v) (fetches v).
Definition set_nodeSize (s : Z * Z) (v : view) : view :=
  View (cfg v) (handlers v) (nextId v) (orientation v) (zoom v) s (nodeData v)
       (currentId v) (store v) (g_nodes v) (path_links v) (fetches v).
Definition set_nodeData (m : gmap string loc) (v : view) : view :=
  View (cfg v) (handlers v) (nextId v) (orientation v) (zoom v) (nodeSize v) m
       (currentId v) (store v) (g_nodes v) (path_links v) (fetches v).
Definition set_currentId (c : value) (v : view) : view :=
  View (cfg v) (handlers v) (nextId v) (orientation v) (zoom v) (nodeSize v)
       (nodeData v) c (store v) (g_nodes v) (path_links v) (fetches v).
Definition set_store (h : loc -> node) (v : view) : view :=
  View (cfg v) (handlers v) (nextId v) (orientation v) (zoom v) (nodeSize v)
       (nodeData v) (currentId v) h (g_nodes v) (path_links v) (fetches v).
Definition set_g_nodes (g : list gnode) (v : view) : view :=
  View (cfg v) (handlers v) (nextId v) (orientation v) (zoom v) (nodeSize v)
       (nodeData v) (currentId v) (store v) g (path_links v) (fetches v).
Definition set_path_links (l : list plink) (v : view) : view :=
  View (cfg v) (handlers v) (nextId v) (orientation v) (zoom v) (nodeSize v)
       (nodeData v) (currentId v) (store v) (g_nodes v) l (fetches v).
Definition set_fetches (f : list value) (v : view) : view :=
  View (cfg v) (handlers v) (nextId v) (orientation v) (zoom v) (nodeSize v)
       (nodeData v) (currentId v) (store v) (g_nodes v) (path_links v) f.

(** ** Outcomes

    A method call either returns, throws (a [TypeError] from reading a field
    of [undefined] or calling it), or does not come back from the layout's
    walk.  JavaScript does not roll back: a throw leaves the state as it was
    at that point. *)
Inductive outcome :=
  | Done (v : view)
  | Thrown (v : view)
  | Hang.

Definition then_ (o : outcome) (k : view -> outcome) : outcome :=
  match o with
  | Done v => k v
  | Thrown v => Thrown v
  | Hang => Hang
  end.

(** ** Static helpers of the class *)

(** [NodeView.orientation(orientKey)]; falling off the end returns
    [undefined]. *)
Definition NodeView_orientation (orientKey : string) : option orient :=
  if String.eqb orientKey "top-to-bottom" then Some TopToBottom
  else if String.eqb orientKey "left-to-right" then Some LeftToRight
  else None.

(** [NodeView._pos(node)]: [{x: node.x || 0, y: node.y || 0}];
    [None] is the [TypeError] on an [undefined] node. *)
Definition _pos (n : option node) : option pos :=
  match n with
  | None => None
  | Some n => Some (default 0 (x n), default 0 (y n))
  end.

(** [this.nodeData[k]].  [nodeData] is a plain object: a key it does not
    hold itself is looked up on [Object.prototype], and only what is not
    found there either reads as [undefined].  (Writes, [this.nodeData[k] =
    node], are kept as own entries under every key.) *)
Definition nodeData_get (v : view) (k : string) : option loc :=
  match nodeData v !! k with
  | Some l => Some l
  | None => if decide (k ∈ Object_prototype) then Some (Builtin k) else None
  end.

(** [this.nodeData[v]], followed into the store. *)
Definition registry_get (v : view) (i : value) : option node :=
  store v <$> nodeData_get v (to_key i).

(** [this.x(d)] and [this.y(d)]: [this.orientation.x(d)] throws when the
    orientation is [undefined]. *)
Definition this_x (v : view) (d : pos) : option Z :=
  match orientation v with
  | None => None
  | Some TopToBottom => Some (fst d)
  | Some LeftToRight => Some (snd d)
  end.
Definition this_y (v : view) (d : pos) : option Z :=
  match orientation v with
  | None => None
  | Some TopToBottom => Some (snd d)
  | Some LeftToRight => Some (fst d)
  end.

(** [_translate(d)]: the pair that is printed into [translate(x, y)]. *)
Definition _translate (v : view) (d : pos) : option pos :=
  match this_x v d, this_y v d with
  | Some a, Some b => Some (a, b)
  | _, _ => None
  end.

(** [this.diagonal({source: p, target: p})]: both end points go through the
    projection [[this.x(d), this.y(d)]]. *)
Definition diagonal (v : view) (s t : pos) : option (pos * pos) :=
  match _translate v s, _translate v t with
  | Some a, Some b => Some (a, b)
  | _, _ => None
  end.

(** ** The graphics library, as far as the controller relies on it

    [d3.layout.tree] and the keyed data join of [selection.data] belong to
    d3 (version 3, the one that has [d3.layout.tree] and
    [d3.behavior.zoom]), not to the repository.  The specification leaves
    the library out of scope and only says what the render pass gets from
    it: positions "for the pruned node set", and a reconciliation "by
    identifier" in which elements present in both are updated in place,
    elements newly present are created, and elements no longer present are
    animated away and removed. *)

Module D3.

(** Modelled from the spec: the walk behind [tree.nodes], which is d3's.
    It pops a node, emits it and pushes its children so that the first child
    is popped next.  It has no visited set: on a cyclic [children] graph it
    never returns, which the budget [fuel] stands for. *)
Fixpoint hierarchy (fuel : nat) (h : loc -> node) (stack : list loc)
  : option (list loc) :=
  match fuel with
  | O => None
  | S fuel =>
      match stack with
      | [] => Some []
      | n :: rest => cons n <$> hierarchy fuel h (kids (h n) ++ rest)
      end
  end.

(** Modelled from the spec: [tree.links(nodes)], which is d3's: one
    [{source, target}] per child of each node, in node order. *)
Definition links (h : loc -> node) (nodes : list loc) : list (loc * loc) :=
  flat_map (fun p => map (fun c => (p, c)) (kids (h p))) nodes.

(** Modelled from the spec: how [selection.data(data, key)], which is d3's,
    calls its key function: once per datum, left to right, threading
    whatever the key function changes.  Keys are compared as strings. *)
Fixpoint keys {S D : Type} (key : S -> D -> S * string)
    (s : S) (ds : list D) : S * list string :=
  match ds with
  | [] => (s, [])
  | d :: ds =>
      let sk := key s d in
      let r := keys key sk.1 ds in
      (r.1, sk.2 :: r.2)
  end.

(** Modelled from the spec: in the join, the first datum bound under key
    [k]. *)
Fixpoint datum_of {D : Type} (k : string) (ks : list string) (ds : list D)
  : option D :=
  match ks, ds with
  | k' :: ks, d :: ds => if decide (k = k') then Some d else datum_of k ks ds
  | _, _ => None
  end.

(** Modelled from the spec: what the join of [selection.data], which is
    d3's, decides for the elements already present, in document order.  An
    element whose key was seen on an earlier element, or whose key no datum
    has, exits ([None]); otherwise it is updated and rebound to the first
    datum with its key. *)
Fixpoint join_old {E D : Type} (seen : list string) (ks_new : list string)
    (ds : list D) (old : list (string * E)) : list (E * option D) :=
  match old with
  | [] => []
  | (k, e) :: old =>
      (e, if decide (k ∈ seen) then None else datum_of k ks_new ds)
        :: join_old (k :: seen) ks_new ds old
  end.

(** Modelled from the spec: the enter selection of the join, which is
    d3's: the data whose key no element has, each key once (a later datum
    repeating a key is neither entered nor updated). *)
Fixpoint join_enter {D : Type} (seen : list string) (ks_old : list string)
    (new : list (string * D)) : list D :=
  match new with
  | [] => []
  | (k, d) :: new =>
      (if decide (k ∈ seen) then []
       else if decide (k ∈ ks_old) then [] else [d])
        ++ join_enter (k :: seen) ks_old new
  end.

(** Modelled from the spec: [attr(name, fn)], which is d3's, on a selection
    and on a transition alike.  It calls [fn] once for every element, at
    once; the result is [false] when a call throws. *)
Definition attr {A B : Type} (fn : A -> option B) (sel : list A) : bool :=
  forallb (fun a => bool_decide (is_Some (fn a))) sel.

End D3.

(** ** The controller *)

Section NodeView.

(** The host's side.  [prune_nodes] sees and may change node objects (a
    host typically fills their [children] from the opened nodes) and returns
    the root of the tree to draw, or [undefined].  [add-nodes] and
    [update-nodes] fill the inside of the elements handed to them, which is
    not represented here: of those two only the registration matters.
    [tree_xy] is the layout's placement of a node and [fuel] the budget of
    its walk. *)
Variable prune_nodes : (loc -> node) -> option loc -> (loc -> node) * option loc.
Variable tree_xy : Z * Z -> (loc -> node) -> list loc -> loc -> pos.
Variable fuel : nat.

(** [reload()].  Note what it leaves alone: [handlers] and [currentId]. *)
Definition reload (v : view) : view :=
  View (cfg v) (handlers v) 0
       (NodeView_orientation (c_orientation (cfg v)))
       ((0, 0), 1)
       (c_nodeWidth (cfg v), c_nodeHeight (cfg v))
       ∅ (currentId v) (store v) [] [] (fetches v).

(** [new NodeView(config)], in a host whose objects are [h]. *)
Definition constructor (c : config) (h : loc -> node) : view :=
  reload (View c ∅ 0 None ((0, 0), 1) (0, 0) ∅ VUndef h [] [] []).

(** [on(event, handler)] *)
Definition on (event : string) (v : view) : view :=
  set_handlers ({[event]} ∪ handlers v) v.

(** [centerNode()] *)
Definition centerNode (v : view) : view := set_zoom ((0, 0), 1) v.

(** [this.tree.nodes(prunedRoot)]: the walk, then a position on every node
    it found. *)
Definition tree_nodes (v : view) (root : loc)
  : option ((loc -> node) * list loc) :=
  match D3.hierarchy fuel (store v) [root] with
  | None => None
  | Some ns =>
      Some (foldr (fun n h => <[n := set_xy (tree_xy (nodeSize v) (store v) ns n) (h n)]> h)
                  (store v) ns, ns)
  end.

(** The key function of the node join, [d.id || (d.id = this.nextId++)],
    on the pair of the store and [nextId]. *)
Definition node_key (s : (loc -> node) * Z) (d : loc)
  : (loc -> node) * Z * string :=
  if truthy (id (s.1 d)) then (s, to_key (id (s.1 d)))
  else ((<[d := set_id (VNum s.2) (s.1 d)]> s.1, s.2 + 1), to_key (VNum s.2)).

(** The key function of the link join, [d.target.id]. *)
Definition link_key (h : loc -> node) (d : loc * loc)
  : (loc -> node) * string :=
  (h, to_key (id (h d.2))).

(** [selectAll("g.node").data(nodeData, key)]: keys of the elements first,
    then of the data; elements are rebound and sorted into update and exit,
    the enter selection is returned beside the view. *)
Definition data_nodes (ds : list loc) (v : view) : view * list loc :=
  let old := D3.keys node_key (store v, nextId v) (map g_datum (g_nodes v)) in
  let new := D3.keys node_key old.1 ds in
  let g := map (fun eo : gnode * option loc =>
                  match eo.2 with
                  | Some d => GNode d (g_transform eo.1) (g_exiting eo.1) InUpdate
                  | None => GNode (g_datum eo.1) (g_transform eo.1)
                                  (g_exiting eo.1) InExit
                  end)
               (D3.join_old [] new.2 ds (zip old.2 (g_nodes v))) in
  (set_g_nodes g (set_nextId new.1.2 (set_store new.1.1 v)),
   D3.join_enter [] old.2 (zip new.2 ds)).

(** [selectAll("path.link").data(linkData, key)] *)
Definition data_links (ds : list (loc * loc)) (v : view)
  : view * list (loc * loc) :=
  let old := D3.keys link_key (store v) (map l_datum (path_links v)) in
  let new := D3.keys link_key (store v) ds in
  let l := map (fun eo : plink * option (loc * loc) =>
                  match eo.2 with
                  | Some d => PLink d (l_d eo.1) (l_exiting eo.1) InUpdate
                  | None => PLink (l_datum eo.1) (l_d eo.1)
                                  (l_exiting eo.1) InExit
                  end)
               (D3.join_old [] new.2 ds (zip old.2 (path_links v))) in
  (set_path_links l v, D3.join_enter [] old.2 (zip new.2 ds)).

(** [_updateNodes(nodes)]: a transition on the selection, which replaces a
    pending exit on the same element; its [transform], for which
    [this._translate(NodeView._pos(d))] is called once per element of the
    selection; then the host's [update-nodes]. *)
Definition _updateNodes (r : role) (v : view) : outcome :=
  let v := set_g_nodes
             (map (fun e => if decide (g_role e = r)
                            then GNode (g_datum e) (g_transform e) false (g_role e)
                            else e) (g_nodes v)) v in
  if D3.attr (fun e => _pos (Some (store v (g_datum e))) ≫= _translate v)
             (filter (fun e => g_role e = r) (g_nodes v))
  then if decide ("update-nodes" ∈ handlers v) then Done v else Thrown v
  else Thrown v.

(** [_addNodes(node, pos)]: the elements are appended first; [transform] is
    then computed once per new element, so [_translate] is not evaluated at
    all for an empty enter selection. *)
Definition _addNodes (enter : list loc) (p : pos) (v : view) : outcome :=
  let v := set_g_nodes
             (g_nodes v ++ map (fun d => GNode d None false InEnter) enter) v in
  match enter with
  | [] =>
      if decide ("add-nodes" ∈ handlers v)
      then _updateNodes InEnter v
      else Thrown v
  | _ :: _ =>
      match _translate v p with
      | None => Thrown v
      | Some t =>
          let v := set_g_nodes
                     (map (fun e => if decide (g_role e = InEnter)
                                    then GNode (g_datum e) (Some t)
                                               (g_exiting e) (g_role e)
                                    else e) (g_nodes v)) v in
          if decide ("add-nodes" ∈ handlers v)
          then _updateNodes InEnter v
          else Thrown v
      end
  end.

(** [_removeNodes(nodes, pos)]: a new transition on the leaving elements,
    its [transform], for which [this._translate(pos)] is called once per
    leaving element, and only then the [remove()] that makes it an exit. *)
Definition _removeNodes (p : pos) (v : view) : outcome :=
  let v := set_g_nodes
             (map (fun e => if decide (g_role e = InExit)
                            then GNode (g_datum e) (g_transform e) false (g_role e)
                            else e) (g_nodes v)) v in
  if D3.attr (fun _ : gnode => _translate v p)
             (filter (fun e => g_role e = InExit) (g_nodes v))
  then Done (set_g_nodes
               (map (fun e => if decide (g_role e = InExit)
                              then GNode (g_datum e) (g_transform e) true (g_role e)
                              else e) (g_nodes v)) v)
  else Thrown v.

(** The point [this.diagonal] projects for an end of a link: the node's own
    [x] and [y].  (A coordinate that is [undefined] only spoils the path
    that is printed; 0 stands for it.) *)
Definition link_end (n : node) : pos := (default 0 (x n), default 0 (y n)).

(** [_updateLinks(links)]: a transition on the selection and its [d], for
    which [this.diagonal] is called once per link of the selection. *)
Definition _updateLinks (r : role) (v : view) : outcome :=
  let v := set_path_links
             (map (fun e => if decide (l_role e = r)
                            then PLink (l_datum e) (l_d e) false (l_role e)
                            else e) (path_links v)) v in
  if D3.attr (fun e => diagonal v (link_end (store v (l_datum e).1))
                                  (link_end (store v (l_datum e).2)))
             (filter (fun e => l_role e = r) (path_links v))
  then Done v
  else Thrown v.

(** [_addLinks(link, pos)]: as for nodes, [d] is computed per new element. *)
Definition _addLinks (enter : list (loc * loc)) (p : pos) (v : view) : outcome :=
  let v := set_path_links
             (path_links v ++ map (fun d => PLink d None false InEnter) enter) v in
  match enter with
  | [] => _updateLinks InEnter v
  | _ :: _ =>
      match diagonal v p p with
      | None => Thrown v
      | Some t =>
          _updateLinks InEnter
            (set_path_links
               (map (fun e => if decide (l_role e = InEnter)
                              then PLink (l_datum e) (Some t)
                                         (l_exiting e) (l_role e)
                              else e) (path_links v)) v)
      end
  end.

(** [_removeLinks(links, pos)]: as [_removeNodes], with
    [this.diagonal({source: pos, target: pos})] called once per leaving
    link. *)
Definition _removeLinks (p : pos) (v : view) : outcome :=
  let v := set_path_links
             (map (fun e => if decide (l_role e = InExit)
                            then PLink (l_datum e) (l_d e) false (l_role e)
                            else e) (path_links v)) v in
  if D3.attr (fun _ : plink => diagonal v p p)
             (filter (fun e => l_role e = InExit) (path_links v))
  then Done (set_path_links
               (map (fun e => if decide (l_role e = InExit)
                              then PLink (l_datum e) (l_d e) true (l_role e)
                              else e) (path_links v)) v)
  else Thrown v.

(** The second half of [_update], "Handle links". *)
Definition _update_links (nodeData_ : list loc) (prevPos currPos : pos)
    (v : view) : outcome :=
  let links := data_links (D3.links (store v) nodeData_) v in
  then_ (_updateLinks InUpdate links.1) (fun v =>
  then_ (_addLinks links.2 prevPos v) (_removeLinks currPos)).

(** The first half of [_update], "Handle nodes". *)
Definition _update_nodes (nodeData_ : list loc) (prevPos currPos : pos)
    (v : view) : outcome :=
  let nodes := data_nodes nodeData_ v in
  then_ (_updateNodes InUpdate nodes.1) (fun v =>
  then_ (_addNodes nodes.2 prevPos v) (_removeNodes currPos)).

(** [NodeView._pos(this.nodeData[toggleId || this.currentId])], the
    reference position of a render pass. *)
Definition reference_pos (toggleId : value) (v : view) : option pos :=
  _pos (registry_get v (or_else toggleId (currentId v))).

(** [_update(rootId, toggleId)], the render pass. *)
Definition _update (rootId toggleId : value) (v : view) : outcome :=
  match reference_pos toggleId v with
  | None => Thrown v
  | Some prevPos =>
      let newRoot := nodeData_get v (to_key rootId) in
      let v := set_currentId rootId v in
      if decide ("prune-nodes" ∈ handlers v) then
        let pr := prune_nodes (store v) newRoot in
        let v := set_store pr.1 v in
        match (match pr.2 with
               | Some r => tree_nodes v r
               | None => Some (store v, [])
               end) with
        | None => Hang
        | Some (h, nodeData_) =>
            let v := set_store h v in
            match reference_pos toggleId v with
            | None => Thrown v
            | Some currPos =>
                then_ (_update_nodes nodeData_ prevPos currPos v)
                      (_update_links nodeData_ prevPos currPos)
            end
        end
      else Thrown v
  end.

(** [setRoot(root)]; [None] is [undefined]. *)
Definition setRoot (root : option loc) (v : view) : outcome :=
  match root with
  | None => Done v
  | Some r =>
      let root := store v r in
      let v := set_nodeData (<[to_key (id root) := r]> (nodeData v)) v in
      let v := set_currentId (id root) v in
      _update (id root) VUndef v
  end.

(** [toggle(id)].  The call of [get-children] is recorded in [fetches]; what
    its promise resolves to arrives later, in [toggle_then]. *)
Definition toggle (i : value) (v : view) : outcome :=
  match nodeData_get v (to_key i) with
  | None => Thrown v
  | Some l =>
      match _children (store v l) with
      | None =>
          if decide ("get-children" ∈ handlers v)
          then Done (set_fetches (fetches v ++ [i]) v)
          else Thrown v
      | Some _ =>
          let v := set_store
                     (<[l := set_isOpened (negate (isOpened (store v l)))
                                          (store v l)]> (store v)) v in
          _update (currentId v) i v
      end
  end.

(** [children.forEach(child => { this.nodeData[child.id] = child; })] *)
Fixpoint forEach_register (children : list loc) (v : view) : view :=
  match children with
  | [] => v
  | child :: children =>
      forEach_register children
        (set_nodeData (<[to_key (id (store v child)) := child]> (nodeData v)) v)
  end.

(** The first statement of the resolution callback:
    [this.nodeData[id]._children = children]. *)
Definition mark_fetched (i : value) (children : list loc) (v : view) : outcome :=
  match nodeData_get v (to_key i) with
  | None => Thrown v
  | Some l =>
      Done (set_store (<[l := set__children (Some children) (store v l)]> (store v)) v)
  end.

(** The callback passed to [then] in [toggle(id)], run when the promise of
    [get-children(id)] resolves to [children] ([None] is [undefined]). *)
Definition toggle_then (i : value) (children : option (list loc)) (v : view)
  : outcome :=
  match children with
  | None => Done v
  | Some cs =>
      then_ (mark_fetched i cs v) (fun v => toggle i (forEach_register cs v))
  end.

(** [redraw()] *)
Definition redraw (v : view) : outcome :=
  if truthy (currentId v) then _update (currentId v) VUndef v else Done v.

(** [resize(nodeWidth, nodeHeight)] *)
Definition resize (nodeWidth nodeHeight : Z) (v : view) : outcome :=
  _update (currentId v) VUndef (set_nodeSize (nodeWidth, nodeHeight) v).

(** The nodes a render pass rooted at [rootId] would draw: the walk of the
    tree that [prune-nodes] returns, nothing when it returns [undefined]. *)
Definition pruned_walk (rootId : value) (v : view) : option (list loc) :=
  let pr := prune_nodes (store v) (nodeData_get v (to_key rootId)) in
  match pr.2 with
  | Some r => D3.hierarchy fuel pr.1 [r]
  | None => Some []
  end.

(** ** The public interface as a type of calls

    [Resolve] is not a method: it is the moment the promise of an earlier
    [get-children] call resolves and the callback of [toggle] runs. *)
Inductive call :=
  | On (event : string)
  | CenterNode
  | SetRoot (root : option loc)
  | Toggle (i : value)
  | Resolve (i : value) (children : option (list loc))
  | Redraw
  | Resize (nodeWidth nodeHeight : Z).

Definition exec (c : call) (v : view) : outcome :=
  match c with
  | On event => Done (on event v)
  | CenterNode => Done (centerNode v)
  | SetRoot root => setRoot root v
  | Toggle i => toggle i v
  | Resolve i children => toggle_then i children v
  | Redraw => redraw v
  | Resize w h => resize w h v
  end.

End NodeView.

(** Modelled from the spec: the end of the transitions of a render pass,
    which d3's timer brings about.  [remove()] takes out the elements whose
    newest transition is an exit. *)
Definition settle (v : view) : view :=
  set_path_links (filter (fun e => l_exiting e = false) (path_links v))
    (set_g_nodes (filter (fun e => g_exiting e = false) (g_nodes v)) v).

(** The elements still rendered once the transitions have ended. *)
Definition rendered_nodes (v : view) : list gnode := g_nodes (settle v).
Definition rendered_links (v : view) : list plink := path_links (settle v).

(** * Notions used in the statements *)

(** ** What a call leaves behind

    [after P o]: [P] holds of the state the call leaves, whether it returned
    or threw. *)
Definition after (P : view -> Prop) (o : outcome) : Prop :=
  match o with
  | Done w | Thrown w => P w
  | Hang => True
  end.

(** [frame v w]: [w] has the registry, current root, handlers, orientation,
    configuration and fetch log of [v]: what a render pass does not touch
    once it has set the current root. *)
Definition frame (v w : view) : Prop :=
  nodeData w = nodeData v /\ currentId w = currentId v /\
  handlers w = handlers v /\ orientation w = orientation v /\
  fetches w = fetches v /\ cfg w = cfg v.

(** ** The registry and the tree that is drawn *)

(** The object [l] has a truthy identifier, and the registry holds the key
    of that identifier. *)
Definition registered_id (v : view) (l : loc) : Prop :=
  truthy (id (store v l)) = true /\
  is_Some (nodeData v !! to_key (id (store v l))).

(** [closed v]: every object the registry holds, and every fetched child of
    every object, has a truthy identifier whose key is in the registry; and
    the current root, once there is one, is in the registry. *)
Definition closed (v : view) : Prop :=
  (forall k l, nodeData v !! k = Some l -> registered_id v l) /\
  (forall l cs c, _children (store v l) = Some cs -> c ∈ cs ->
                  registered_id v c) /\
  (currentId v = VUndef \/ is_Some (nodeData v !! to_key (currentId v))).

(** [keeps h h']: from the store [h] to the store [h'] no object has changed
    its fetched children or a truthy identifier. *)
Definition keeps (h h' : loc -> node) : Prop :=
  (forall l, _children (h' l) = _children (h l)) /\
  (forall l, truthy (id (h l)) = true -> id (h' l) = id (h l)).

(** A host whose [prune-nodes] prunes: it returns the root it was handed or
    [undefined], leaves identifiers and fetched children as they are, and
    gives a node no other [children] than some of its fetched ones. *)
Definition prunes
    (prune_nodes : (loc -> node) -> option loc -> (loc -> node) * option loc)
  : Prop :=
  forall h root,
    ((prune_nodes h root).2 = None \/ (prune_nodes h root).2 = root) /\
    forall l,
      id ((prune_nodes h root).1 l) = id (h l) /\
      _children ((prune_nodes h root).1 l) = _children (h l) /\
      forall c, c ∈ kids ((prune_nodes h root).1 l) ->
                exists cs, _children (h l) = Some cs /\ c ∈ cs.

(** What the host hands over has a truthy identifier: the root given to
    [setRoot], the children a fetch resolves to. *)
Definition admissible (c : call) (v : view) : Prop :=
  match c with
  | SetRoot (Some r) => truthy (id (store v r)) = true
  | Resolve _ (Some cs) => forall c, c ∈ cs -> truthy (id (store v c)) = true
  | _ => True
  end.

(** The render pass that [toggle(id)] runs, if it runs one: [_update]'s two
    arguments and the state it starts from. *)
Definition toggle_pass (i : value) (v : view) : option (value * value * view) :=
  match nodeData_get v (to_key i) with
  | None => None
  | Some l =>
      match _children (store v l) with
      | None => None
      | Some _ =>
          Some (currentId v, i,
                set_store (<[l := set_isOpened (negate (isOpened (store v l)))
                                               (store v l)]> (store v)) v)
      end
  end.

(** The render pass that a call runs, if it runs one. *)
Definition pass_of (c : call) (v : view) : option (value * value * view) :=
  match c with
  | SetRoot (Some r) =>
      Some (id (store v r), VUndef,
            set_currentId (id (store v r))
              (set_nodeData (<[to_key (id (store v r)) := r]> (nodeData v)) v))
  | Toggle i => toggle_pass i v
  | Resolve i (Some cs) =>
      match mark_fetched i cs v with
      | Done u => toggle_pass i (forEach_register cs u)
      | _ => None
      end
  | Redraw => if truthy (currentId v) then Some (currentId v, VUndef, v) else None
  | Resize w h => Some (currentId v, VUndef, set_nodeSize (w, h) v)
  | _ => None
  end.

Section Reachable.

Variable prune_nodes : (loc -> node) -> option loc -> (loc -> node) * option loc.
Variable tree_xy : Z * Z -> (loc -> node) -> list loc -> loc -> pos.
Variable fuel : nat.

(** The states of a controller that was constructed over objects none of
    which has fetched children yet, and then only called through [on],
    [centerNode], [setRoot], [toggle], [redraw] and [resize] and through the
    resolutions of its fetches, with admissible arguments; a call that threw
    counts.  [reload()] is not among them. *)
Inductive reachable : view -> Prop :=
  | reachable_new (c : config) (h : loc -> node) :
      (forall l, _children (h l) = None) -> reachable (constructor c h)
  | reachable_call (v w : view) (c : call) :
      reachable v -> admissible c v ->
      exec prune_nodes tree_xy fuel c v = Done w \/
      exec prune_nodes tree_xy fuel c v = Thrown w ->
      reachable w.

End Reachable.

(** ** A host to run the controller against

    A host that shows the fetched children of every opened node, a layout
    that puts the [k]-th node of the walk at [k] node widths, and the objects
    [{id: "A"}], [{id: "B"}], [{id: "C"}], [{id: 0}], [{id: 1}], [{id: "1"}]
    and [{}]. *)
Module Scenario.

Definition prune_opened (h : loc -> node) (root : option loc)
  : (loc -> node) * option loc :=
  (fun l => Node (id (h l)) (x (h l)) (y (h l)) (isOpened (h l)) (_children (h l))
                 (match isOpened (h l) with
                  | Some true => default [] (_children (h l))
                  | _ => []
                  end),
   root).

(** A host that shows nothing. *)
Definition prune_none (h : loc -> node) (root : option loc)
  : (loc -> node) * option loc := (h, None).

Fixpoint index_of (n : loc) (ns : list loc) : Z :=
  match ns with
  | [] => 0
  | m :: ns => if decide (n = m) then 0 else 1 + index_of n ns
  end.

Definition layout (size : Z * Z) (h : loc -> node) (ns : list loc) (n : loc) : pos :=
  (size.1 * (1 + index_of n ns), size.2).

Definition fresh (i : value) : node := Node i None None None None [].

Definition objects (l : loc) : node :=
  match l with
  | Obj 1 => fresh (VStr "A")
  | Obj 2 => fresh (VStr "B")
  | Obj 3 => fresh (VStr "C")
  | Obj 4 => fresh (VNum 0)
  | Obj 5 => fresh (VNum 1)
  | Obj 6 => fresh (VStr "1")
  | _ => fresh VUndef
  end.

Definition a : loc := Obj 1.
Definition b : loc := Obj 2.
Definition c : loc := Obj 3.
Definition zero : loc := Obj 4.
Definition one : loc := Obj 5.
Definition one_str : loc := Obj 6.

Definition registered (v : view) : view :=
  on "get-children" (on "prune-nodes" (on "add-nodes" (on "update-nodes" v))).

(** The configuration of the specification's scenarios, and one whose
    orientation is neither of the two strings. *)
Definition top_to_bottom : config := Config "top-to-bottom" 50 50 200.
Definition diagonal_cfg : config := Config "diagonal" 50 50 200.

Definition start : view := registered (constructor top_to_bottom objects).

(** Running calls one after the other; a throw ends the run. *)
Definition run (calls : list call) (v : view) : outcome :=
  foldl (fun o c => then_ o (exec prune_opened layout 16 c)) (Done v) calls.

(** The state a run leaves. *)
Definition state_of (o : outcome) : view :=
  match o with
  | Done v | Thrown v => v
  | Hang => start
  end.

(** After [setRoot({id: "A"})], and after [toggle("A")] on top of it. *)
Definition rooted_A : view := state_of (run [SetRoot (Some a)] start).
Definition fetching_A : view :=
  state_of (run [SetRoot (Some a); Toggle (VStr "A")] start).

(** Root "A" opened onto "B" and "C", and closed again. *)
Definition open_A : list call :=
  [SetRoot (Some a); Toggle (VStr "A"); Resolve (VStr "A") (Some [b; c])].
Definition opened_A : view := state_of (run open_A start).
Definition closed_A : view :=
  state_of (run (open_A ++ [Toggle (VStr "A")]) start).

(** Root "A" opened onto the children [{id: 1}] and [{id: "1"}]. *)
Definition opened_ones : view :=
  state_of (run [SetRoot (Some a); Toggle (VStr "A");
                 Resolve (VStr "A") (Some [one; one_str])] start).

(** After [setRoot({id: 0})], and after a [resize(50, 50)] on top of it. *)
Definition rooted_zero : view := state_of (run [SetRoot (Some zero)] start).
Definition resized_zero : view :=
  state_of (run [SetRoot (Some zero); Resize 50 50] start).

(** The same with the object [{}], which has no identifier of its own. *)
Definition anon : loc := Obj 7.
Definition rooted_anon : view := state_of (run [SetRoot (Some anon)] start).
Definition resized_anon : view :=
  state_of (run [SetRoot (Some anon); Resize 50 50] start).

(** Root "A" opened onto its child [{id: 0}], which is toggled in turn and
    gets the child "B". *)
Definition open_zero : list call :=
  [SetRoot (Some a); Toggle (VStr "A"); Resolve (VStr "A") (Some [zero]);
   Toggle (VNum 0); Resolve (VNum 0) (Some [b])].
Definition zero_opened : view := state_of (run open_zero start).

(** The root [{id: 1}] whose fetch resolves to [[{id: "1"}]]. *)
Definition replaced_one : view :=
  state_of (run [SetRoot (Some one); Toggle (VNum 1);
                 Resolve (VNum 1) (Some [one_str])] start).

(** [reload()] on the opened root "A"; a fetch for "A" that resolves to
    [[{}]]; and objects among which "A" already has the children "B" and "C"
    fetched and opened when it is handed to [setRoot]. *)
Definition reloaded_A : view := reload opened_A.
Definition opened_anon : view :=
  state_of (run [SetRoot (Some a); Toggle (VStr "A");
                 Resolve (VStr "A") (Some [anon])] start).
Definition objects_attached : loc -> node :=
  <[a := Node (VStr "A") None None (Some true) (Some [b; c]) []]> objects.
Definition start_attached : view :=
  registered (constructor top_to_bottom objects_attached).

End Scenario.

(** * Properties *)

Lemma frame_refl v : frame v v.
Proof. by repeat split. Qed.

Lemma frame_trans u v w : frame u v -> frame v w -> frame u w.
Proof.
  unfold frame.
  intros (-> & -> & -> & -> & -> & ->) (-> & -> & -> & -> & -> & ->); done.
Qed.

Lemma after_then_ (P Q : view -> Prop) o k :
  after P o -> (forall v, P v -> Q v) -> (forall v, P v -> after Q (k v)) ->
  after Q (then_ o k).
Proof. destruct o; simpl; auto. Qed.

Lemma after_mono (P Q : view -> Prop) o :
  after P o -> (forall v, P v -> Q v) -> after Q o.
Proof. destruct o; simpl; auto. Qed.

(** Closing a decidable closed goal by evaluation. *)
#[local] Ltac by_compute := apply (bool_decide_unpack _); vm_compute; exact I.

#[local] Ltac crush_frame :=
  repeat (case_match || case_decide); simpl; unfold frame; simpl; auto 10.

Section Frame.

Variable prune_nodes : (loc -> node) -> option loc -> (loc -> node) * option loc.
Variable tree_xy : Z * Z -> (loc -> node) -> list loc -> loc -> pos.
Variable fuel : nat.

Lemma _updateNodes_frame r v : after (frame v) (_updateNodes r v).
Proof. unfold _updateNodes. crush_frame. Qed.

Lemma _addNodes_frame e p v : after (frame v) (_addNodes e p v).
Proof. unfold _addNodes, _updateNodes. crush_frame. Qed.

Lemma _removeNodes_frame p v : after (frame v) (_removeNodes p v).
Proof. unfold _removeNodes. crush_frame. Qed.

Lemma _updateLinks_frame r v : after (frame v) (_updateLinks r v).
Proof. unfold _updateLinks. crush_frame. Qed.

Lemma _addLinks_frame e p v : after (frame v) (_addLinks e p v).
Proof. unfold _addLinks, _updateLinks. crush_frame. Qed.

Lemma _removeLinks_frame p v : after (frame v) (_removeLinks p v).
Proof. unfold _removeLinks. crush_frame. Qed.

(** Three steps in a row that each keep the frame. *)
Lemma after_frame3 v0 v o1 (k2 k3 : view -> outcome) :
  frame v0 v ->
  after (frame v) o1 ->
  (forall w, after (frame w) (k2 w)) ->
  (forall w, after (frame w) (k3 w)) ->
  after (frame v0) (then_ o1 (fun w => then_ (k2 w) k3)).
Proof.
  intros H0 H1 H2 H3.
  eapply after_then_ with (P := frame v0).
  - eapply after_mono; [exact H1|]. intros; by eapply frame_trans.
  - auto.
  - intros w Hw. eapply after_then_ with (P := frame v0).
    + eapply after_mono; [apply H2|]. intros; by eapply frame_trans.
    + auto.
    + intros u Hu. eapply after_mono; [apply H3|].
      intros; by eapply frame_trans.
Qed.

Lemma _update_nodes_frame ns p q v : after (frame v) (_update_nodes ns p q v).
Proof.
  unfold _update_nodes.
  apply after_frame3 with (v := (data_nodes ns v).1).
  - unfold frame. simpl. auto 10.
  - apply _updateNodes_frame.
  - intros w. apply _addNodes_frame.
  - intros w. apply _removeNodes_frame.
Qed.

Lemma _update_links_frame ns p q v : after (frame v) (_update_links ns p q v).
Proof.
  unfold _update_links.
  apply after_frame3 with (v := (data_links (D3.links (store v) ns) v).1).
  - unfold frame. simpl. auto 10.
  - apply _updateLinks_frame.
  - intros w. apply _addLinks_frame.
  - intros w. apply _removeLinks_frame.
Qed.

Lemma _update_frame r t v :
  after (fun w => w = v \/ frame (set_currentId r v) w)
        (_update prune_nodes tree_xy fuel r t v).
Proof.
  unfold _update.
  destruct (reference_pos t v); [|by left].
  case_decide; [|by right].
  destruct (match (prune_nodes _ _).2 with Some _ => _ | None => _ end)
    as [[h ns]|]; [|done].
  destruct (reference_pos _ _); [|by right].
  eapply after_mono with (P := frame (set_currentId r v)); [|by right].
  eapply after_then_ with (P := frame (set_currentId r v)).
  - eapply after_mono; [apply _update_nodes_frame|]. unfold frame; simpl. auto.
  - auto.
  - intros w Hw. eapply after_mono; [apply _update_links_frame|].
    intros; by eapply frame_trans.
Qed.

End Frame.

(** ** Reading the registry *)

Lemma nodeData_get_own v k l :
  nodeData v !! k = Some l -> nodeData_get v k = Some l.
Proof. intros H. unfold nodeData_get. by rewrite H. Qed.



Lemma nodeData_get_ext v w k :
  nodeData w = nodeData v -> nodeData_get w k = nodeData_get v k.
Proof. intros H. unfold nodeData_get. by rewrite H. Qed.

(** ** The registry under the public calls *)

Section Registry.

Variable prune_nodes : (loc -> node) -> option loc -> (loc -> node) * option loc.
Variable tree_xy : Z * Z -> (loc -> node) -> list loc -> loc -> pos.
Variable fuel : nat.

#[local] Abbreviation _update := (_update prune_nodes tree_xy fuel).
#[local] Abbreviation setRoot := (setRoot prune_nodes tree_xy fuel).
#[local] Abbreviation toggle := (toggle prune_nodes tree_xy fuel).
#[local] Abbreviation toggle_then := (toggle_then prune_nodes tree_xy fuel).
#[local] Abbreviation redraw := (redraw prune_nodes tree_xy fuel).
#[local] Abbreviation resize := (resize prune_nodes tree_xy fuel).
#[local] Abbreviation exec := (exec prune_nodes tree_xy fuel).

Lemma _update_nodeData r t v :
  after (fun w => nodeData w = nodeData v) (_update r t v).
Proof.
  eapply after_mono; [apply _update_frame|].
  intros w [->|H]; [done|apply H].
Qed.

Lemma toggle_nodeData i v :
  after (fun w => nodeData w = nodeData v) (toggle i v).
Proof.
  unfold toggle. destruct (nodeData_get v (to_key i)) as [l|]; [|done].
  destruct (_children (store v l)).
  - eapply after_mono; [apply _update_nodeData|]. done.
  - by case_decide.
Qed.

Lemma forEach_register_store cs v :
  store (forEach_register cs v) = store v.
Proof. revert v. induction cs as [|c cs IH]; intros v; simpl; [done|by rewrite IH]. Qed.

Lemma forEach_register_fetches cs v :
  fetches (forEach_register cs v) = fetches v.
Proof. revert v. induction cs as [|c cs IH]; intros v; simpl; [done|by rewrite IH]. Qed.

Lemma forEach_register_currentId cs v :
  currentId (forEach_register cs v) = currentId v.
Proof. revert v. induction cs as [|c cs IH]; intros v; simpl; [done|by rewrite IH]. Qed.

Lemma forEach_register_keeps cs v k :
  is_Some (nodeData v !! k) -> is_Some (nodeData (forEach_register cs v) !! k).
Proof.
  revert v. induction cs as [|c cs IH]; intros v Hk; simpl; [done|].
  apply IH. simpl. destruct (decide (to_key (id (store v c)) = k)) as [->|].
  - rewrite lookup_insert_eq. eauto.
  - by rewrite lookup_insert_ne.
Qed.

Lemma toggle_then_keeps i cs v k :
  is_Some (nodeData v !! k) ->
  after (fun w => is_Some (nodeData w !! k)) (toggle_then i cs v).
Proof.
  intros Hk. destruct cs as [cs|]; simpl; [|done].
  unfold mark_fetched.
  destruct (nodeData_get v (to_key i)) as [l|] eqn:Hl; simpl; [|done].
  eapply after_mono; [apply toggle_nodeData|].
  intros w ->. by apply forEach_register_keeps.
Qed.

(** C5: the registry is append-only.  Whatever a public call (or the
    resolution of a fetch) leaves behind, by returning or by throwing, every
    key that was in the registry is still in it; [on], [centerNode],
    [toggle], [redraw] and [resize] leave the registry exactly as it was;
    and [reload] replaces it by an empty one. *)
Theorem registry_append_only (c : call) (v : view) :
  after (fun w => forall k, is_Some (nodeData v !! k) -> is_Some (nodeData w !! k))
        (exec c v) /\
  (match c with
   | SetRoot _ | Resolve _ _ => True
   | _ => after (fun w => nodeData w = nodeData v) (exec c v)
   end) /\
  nodeData (reload v) = ∅.
Proof.
  split; [|split; [|done]].
  - destruct c as [e| |[r|]|i|i cs| |nw nh]; simpl; try done.
    + eapply after_mono; [apply _update_nodeData|].
      intros w -> k Hk. simpl.
      destruct (decide (to_key (id (store v r)) = k)) as [->|].
      * rewrite lookup_insert_eq. eauto.
      * by rewrite lookup_insert_ne.
    + eapply after_mono; [apply toggle_nodeData|]. by intros w ->.
    + destruct (toggle_then i cs v) eqn:E; simpl; try done;
        intros k Hk; pose proof (toggle_then_keeps i cs v k Hk) as H;
        by rewrite E in H.
    + unfold redraw. destruct (truthy (currentId v)); [|simpl; auto].
      eapply after_mono; [apply _update_nodeData|]. by intros w ->.
    + eapply after_mono; [apply _update_nodeData|]. by intros w ->.
  - destruct c as [e| |r|i|i cs| |nw nh]; simpl; try done.
    + apply toggle_nodeData.
    + unfold redraw. destruct (truthy (currentId v)); [|done].
      apply _update_nodeData.
    + eapply after_mono; [apply _update_nodeData|]. done.
Qed.

(** C4: [setRoot(undefined)] returns the state it was given.  For a root
    object, [setRoot] is the render pass [_update(root.id)] run on the state
    in which the registry holds the root under the key of its identifier and
    the current root is that identifier; the pass finds the root's own
    position as its reference, and whatever it leaves behind still has the
    root registered and current. *)
Theorem setRoot_spec (v : view) :
  setRoot None v = Done v /\
  forall r : loc,
    let root := store v r in
    let v' := set_currentId (id root)
                (set_nodeData (<[to_key (id root) := r]> (nodeData v)) v) in
    setRoot (Some r) v = _update (id root) VUndef v' /\
    nodeData v' !! to_key (id root) = Some r /\
    reference_pos VUndef v' = _pos (Some root) /\
    after (fun w => nodeData w = <[to_key (id root) := r]> (nodeData v) /\
                    currentId w = id root)
          (setRoot (Some r) v).
Proof.
  split; [reflexivity|]. intros r root v'. split; [reflexivity|]. split; [|split].
  - simpl. apply lookup_insert_eq.
  - unfold reference_pos, registry_get, nodeData_get, or_else. simpl.
    by rewrite lookup_insert_eq.
  - change (setRoot (Some r) v) with (_update (id root) VUndef v').
    eapply after_mono; [apply _update_frame|].
    intros w [->|H]; [done|]. destruct H as (-> & -> & _). done.
Qed.


Lemma forEach_register_other cs v k :
  k ∉ map (fun c => to_key (id (store v c))) cs ->
  nodeData (forEach_register cs v) !! k = nodeData v !! k.
Proof.
  revert v. induction cs as [|c cs IH]; intros v Hk; simpl; [done|].
  simpl in Hk. apply not_elem_of_cons in Hk as [Hne Hk].
  rewrite IH; simpl; [|done]. by rewrite lookup_insert_ne.
Qed.

Lemma forEach_register_lookup cs v c :
  NoDup (map (fun c => to_key (id (store v c))) cs) -> c ∈ cs ->
  nodeData (forEach_register cs v) !! to_key (id (store v c)) = Some c.
Proof.
  revert v. induction cs as [|d cs IH]; intros v Hnd Hc; simpl.
  - by apply elem_of_nil in Hc.
  - simpl in Hnd. apply NoDup_cons in Hnd as [Hd Hnd].
    apply elem_of_cons in Hc as [->|Hc].
    + rewrite forEach_register_other; simpl; [|done].
      apply lookup_insert_eq.
    + apply (IH (set_nodeData _ v)); done.
Qed.

(** C1, amended: toggling a node whose children were never fetched calls
    [get-children] once and does nothing else.  When the promise resolves to
    [undefined], the state is left as it is.  When it resolves to a sequence
    [cs], in whatever state [u] the controller then is (with the node still
    registered), the node gets [cs] as its fetched children, every child is
    registered under the key of its identifier, and the re-invoked
    [toggle(id)] makes no second fetch: it negates the node's flag and runs
    the render pass.  This is for children whose identifiers are distinct as
    registry keys, from each other and from the toggled node's; the registry
    is read as the code reads it, inherited properties included. *)
Theorem toggle_unfetched (i : value) (v : view) (l : loc) :
  nodeData_get v (to_key i) = Some l ->
  _children (store v l) = None ->
  "get-children" ∈ handlers v ->
  toggle i v = Done (set_fetches (fetches v ++ [i]) v) /\
  (forall u, toggle_then i None u = Done u) /\
  (forall (u : view) (p : loc) (cs : list loc),
     nodeData_get u (to_key i) = Some p ->
     to_key i ∉ map (fun c => to_key (id (store u c))) cs ->
     NoDup (map (fun c => to_key (id (store u c))) cs) ->
     exists u' : view,
       toggle_then i (Some cs) u = _update (currentId u) i u' /\
       nodeData_get u' (to_key i) = Some p /\
       (forall c, c ∈ cs -> nodeData u' !! to_key (id (store u' c)) = Some c) /\
       _children (store u' p) = Some cs /\
       isOpened (store u' p) = negate (isOpened (store u p)) /\
       (forall q, q <> p -> store u' q = store u q) /\
       fetches u' = fetches u /\ currentId u' = currentId u).
Proof.
  intros Hl Hc Hh. split; [|split].
  - unfold toggle. rewrite Hl, Hc. by rewrite decide_True.
  - done.
  - intros u p cs Hp Hi Hnd.
    set (u1 := set_store (<[p := set__children (Some cs) (store u p)]> (store u)) u).
    assert (Hkeys : map (fun c => to_key (id (store u1 c))) cs
                    = map (fun c => to_key (id (store u c))) cs).
    { apply map_ext_in. intros c _. simpl.
      destruct (decide (c = p)) as [->|Hne].
      - by rewrite fn_lookup_insert.
      - by rewrite fn_lookup_insert_ne. }
    set (u2 := forEach_register cs u1).
    assert (Hs2 : store u2 = store u1) by apply forEach_register_store.
    assert (Hp2 : nodeData_get u2 (to_key i) = Some p).
    { rewrite <- Hp. unfold nodeData_get, u2.
      rewrite forEach_register_other; [done|by rewrite Hkeys]. }
    exists (set_store (<[p := set_isOpened (negate (isOpened (store u2 p)))
                                           (store u2 p)]> (store u2)) u2).
    split; [|split; [|split; [|split; [|split; [|split; [|split]]]]]].
    + simpl. unfold mark_fetched. rewrite Hp. simpl. fold u1. fold u2.
      unfold toggle. rewrite Hp2.
      assert (Hc2 : _children (store u2 p) = Some cs).
      { rewrite Hs2. simpl. by rewrite fn_lookup_insert. }
      rewrite Hc2. f_equal.
      change (currentId (forEach_register cs u1) = currentId u).
      by rewrite forEach_register_currentId.
    + done.
    + intros c Hin.
      assert (id (store (set_store (<[p := set_isOpened (negate (isOpened (store u2 p)))
                                           (store u2 p)]> (store u2)) u2) c)
              = id (store u1 c)) as ->.
      { simpl. rewrite Hs2. destruct (decide (c = p)) as [->|Hne].
        - by rewrite fn_lookup_insert.
        - by rewrite fn_lookup_insert_ne. }
      apply forEach_register_lookup; [by rewrite Hkeys|done].
    + simpl. rewrite fn_lookup_insert. simpl. rewrite Hs2. simpl.
      by rewrite fn_lookup_insert.
    + simpl. rewrite fn_lookup_insert. simpl. rewrite Hs2. simpl.
      by rewrite fn_lookup_insert.
    + intros q Hq. simpl. rewrite fn_lookup_insert_ne by done.
      rewrite Hs2. simpl. by rewrite fn_lookup_insert_ne.
    + simpl. unfold u2. by rewrite forEach_register_fetches.
    + simpl. unfold u2. by rewrite forEach_register_currentId.
Qed.

End Registry.



(** [toggle("A")] on the freshly set root [{id: "A"}], and the resolution of
    its fetch to [[{id: "B"}, {id: "C"}]]. *)
Lemma toggle_unfetched_witness :
  toggle Scenario.prune_opened Scenario.layout 16 (VStr "A") Scenario.rooted_A
  = Done Scenario.fetching_A /\
  exists u' : view,
    toggle_then Scenario.prune_opened Scenario.layout 16 (VStr "A")
      (Some [Scenario.b; Scenario.c]) Scenario.fetching_A
    = _update Scenario.prune_opened Scenario.layout 16 (VStr "A") (VStr "A") u' /\
    nodeData u' !! "B" = Some Scenario.b /\
    nodeData u' !! "C" = Some Scenario.c /\
    isOpened (store u' Scenario.a) = Some true.
Proof.
  assert (H1 : nodeData_get Scenario.rooted_A (to_key (VStr "A")) = Some Scenario.a)
    by (vm_compute; reflexivity).
  assert (H2 : _children (store Scenario.rooted_A Scenario.a) = None)
    by (vm_compute; reflexivity).
  assert (H3 : "get-children" ∈ handlers Scenario.rooted_A)
    by by_compute.
  destruct (toggle_unfetched Scenario.prune_opened Scenario.layout 16
              (VStr "A") Scenario.rooted_A Scenario.a H1 H2 H3) as (Ha & _ & Hc).
  split; [rewrite Ha; vm_compute; reflexivity|].
  assert (H4 : nodeData_get Scenario.fetching_A (to_key (VStr "A")) = Some Scenario.a)
    by (vm_compute; reflexivity).
  assert (H5 : to_key (VStr "A")
               ∉ map (fun c => to_key (id (store Scenario.fetching_A c)))
                     [Scenario.b; Scenario.c]).
  { by_compute. }
  assert (H6 : NoDup (map (fun c => to_key (id (store Scenario.fetching_A c)))
                          [Scenario.b; Scenario.c])).
  { by_compute. }
  destruct (Hc Scenario.fetching_A Scenario.a [Scenario.b; Scenario.c] H4 H5 H6)
    as (u' & E & _ & Hreg & _ & Hopen & Hst & _).
  exists u'. split; [exact E|].
  assert (Hb : store u' Scenario.b = store Scenario.fetching_A Scenario.b)
    by (apply Hst; discriminate).
  assert (Hcc : store u' Scenario.c = store Scenario.fetching_A Scenario.c)
    by (apply Hst; discriminate).
  split; [|split].
  - pose proof (Hreg Scenario.b ltac:(by_compute)) as Hx.
    rewrite Hb in Hx. rewrite <- Hx. f_equal.
  - pose proof (Hreg Scenario.c ltac:(by_compute)) as Hx.
    rewrite Hcc in Hx. rewrite <- Hx. f_equal.
  - rewrite Hopen. vm_compute. reflexivity.
Defined.

(** C1 as stated fails.  A fetch for the root "A" resolves to
    [[{id: 1}, {id: "1"}]]: the two children have the one key ["1"], the
    second replaces the first there, and of the two only [{id: "1"}] is in
    the registry, which has gained one entry, not two.  And a fetch for the
    root [{id: 1}] resolves to [[{id: "1"}]]: the child takes the root's
    place in the registry, so the re-invoked [toggle(1)] finds a node
    without fetched children and fetches again; the root's flag is not
    negated and no render pass runs (the one element is the root's, from
    [setRoot]). *)
Lemma fetched_children_share_key :
  Scenario.run [SetRoot (Some Scenario.a); Toggle (VStr "A");
                Resolve (VStr "A") (Some [Scenario.one; Scenario.one_str])]
               Scenario.start
  = Done Scenario.opened_ones /\
  _children (store Scenario.opened_ones Scenario.a)
  = Some [Scenario.one; Scenario.one_str] /\
  id (store Scenario.opened_ones Scenario.one) = VNum 1 /\
  nodeData Scenario.opened_ones !! to_key (VNum 1) = Some Scenario.one_str /\
  (Scenario.one ∉ (map_to_list (nodeData Scenario.opened_ones)).*2) /\
  size (nodeData Scenario.fetching_A) = 1%nat /\
  size (nodeData Scenario.opened_ones) = 2%nat /\
  Scenario.run [SetRoot (Some Scenario.one); Toggle (VNum 1);
                Resolve (VNum 1) (Some [Scenario.one_str])] Scenario.start
  = Done Scenario.replaced_one /\
  nodeData Scenario.replaced_one !! to_key (VNum 1) = Some Scenario.one_str /\
  fetches Scenario.replaced_one = [VNum 1; VNum 1] /\
  _children (store Scenario.replaced_one Scenario.one)
  = Some [Scenario.one_str] /\
  isOpened (store Scenario.replaced_one Scenario.one) = None /\
  map g_datum (g_nodes Scenario.replaced_one) = [Scenario.one].
Proof.
  split; [vm_compute; reflexivity|].
  split; [vm_compute; reflexivity|].
  split; [vm_compute; reflexivity|].
  split; [vm_compute; reflexivity|].
  split; [by_compute|].
  split; [vm_compute; reflexivity|].
  split; [vm_compute; reflexivity|].
  split; [vm_compute; reflexivity|].
  split; [vm_compute; reflexivity|].
  split; [vm_compute; reflexivity|].
  split; [vm_compute; reflexivity|].
  split; vm_compute; reflexivity.
Qed.

(** ** Identifiers that are falsy

    [redraw], the key function of the node join and the reference position
    of a render pass all test an identifier for truth where they mean to test
    that it is there.  For a truthy identifier the three do what is
    expected. *)

Section Truthy.

Variable prune_nodes : (loc -> node) -> option loc -> (loc -> node) * option loc.
Variable tree_xy : Z * Z -> (loc -> node) -> list loc -> loc -> pos.
Variable fuel : nat.

Lemma redraw_truthy v :
  truthy (currentId v) = true ->
  redraw prune_nodes tree_xy fuel v
  = _update prune_nodes tree_xy fuel (currentId v) VUndef v.
Proof. intros H. unfold redraw. by rewrite H. Qed.

Lemma redraw_falsy v :
  truthy (currentId v) = false -> redraw prune_nodes tree_xy fuel v = Done v.
Proof. intros H. unfold redraw. by rewrite H. Qed.

Lemma node_key_truthy s d :
  truthy (id (s.1 d)) = true -> node_key s d = (s, to_key (id (s.1 d))).
Proof. intros H. unfold node_key. by rewrite H. Qed.

Lemma node_key_id s d l :
  truthy (id (s.1 l)) = true -> id ((node_key s d).1.1 l) = id (s.1 l).
Proof.
  intros H. unfold node_key. destruct (truthy (id (s.1 d))) eqn:E; [done|].
  simpl. destruct (decide (l = d)) as [->|Hne].
  - congruence.
  - by rewrite fn_lookup_insert_ne.
Qed.

Lemma keys_node_key_id ds s l :
  truthy (id (s.1 l)) = true ->
  id ((D3.keys node_key s ds).1.1 l) = id (s.1 l).
Proof.
  revert s. induction ds as [|d ds IH]; intros s H; simpl; [done|].
  rewrite IH; [by apply node_key_id|]. by rewrite node_key_id.
Qed.

Lemma reference_pos_truthy i v :
  truthy i = true -> reference_pos i v = _pos (registry_get v i).
Proof. intros H. unfold reference_pos, or_else. by rewrite H. Qed.

Lemma reference_pos_falsy i v :
  truthy i = false -> reference_pos i v = _pos (registry_get v (currentId v)).
Proof. intros H. unfold reference_pos, or_else. by rewrite H. Qed.

(** What [toggle] does on a node whose children are there, for a truthy
    identifier: no fetch, the flag negated, and the render pass of the
    current root with the toggled node's own position as reference. *)
Lemma toggle_fetched_truthy i v l cs :
  nodeData v !! to_key i = Some l ->
  _children (store v l) = Some cs ->
  truthy i = true ->
  exists v',
    toggle prune_nodes tree_xy fuel i v
    = _update prune_nodes tree_xy fuel (currentId v) i v' /\
    isOpened (store v' l) = negate (isOpened (store v l)) /\
    (forall q, q <> l -> store v' q = store v q) /\
    fetches v' = fetches v /\ currentId v' = currentId v /\
    reference_pos i v' = _pos (Some (store v l)) /\
    after (fun w => fetches w = fetches v /\ currentId w = currentId v)
          (toggle prune_nodes tree_xy fuel i v).
Proof.
  intros Hl Hc Ht.
  exists (set_store (<[l := set_isOpened (negate (isOpened (store v l)))
                                         (store v l)]> (store v)) v).
  assert (E : toggle prune_nodes tree_xy fuel i v
              = _update prune_nodes tree_xy fuel (currentId v) i
                  (set_store (<[l := set_isOpened (negate (isOpened (store v l)))
                                                  (store v l)]> (store v)) v)).
  { unfold toggle. by rewrite (nodeData_get_own _ _ _ Hl), Hc. }
  split; [exact E|]. split; [|split; [|split; [|split; [|split]]]]; simpl.
  - by rewrite fn_lookup_insert.
  - intros q Hq. by rewrite fn_lookup_insert_ne.
  - done.
  - done.
  - rewrite reference_pos_truthy by done. unfold registry_get, nodeData_get.
    simpl. rewrite Hl. simpl. by rewrite fn_lookup_insert.
  - rewrite E. eapply after_mono; [apply _update_frame|].
    intros w [->|H]; [done|]. destruct H as (_ & -> & _ & _ & -> & _). done.
Qed.

End Truthy.

#[local] Abbreviation host_redraw := (redraw Scenario.prune_opened Scenario.layout 16).
#[local] Abbreviation host_update := (_update Scenario.prune_opened Scenario.layout 16).
#[local] Abbreviation host_toggle := (toggle Scenario.prune_opened Scenario.layout 16).

(** C8, at [setRoot({id: 0})] followed by [redraw()]: the root is registered
    and is the current root, yet [redraw] returns without a render pass (the
    pass itself would not leave the state as it is). *)
Theorem redraw_root_zero :
  Scenario.run [SetRoot (Some Scenario.zero)] Scenario.start
  = Done Scenario.rooted_zero /\
  currentId Scenario.rooted_zero = VNum 0 /\
  nodeData Scenario.rooted_zero !! to_key (currentId Scenario.rooted_zero)
  = Some Scenario.zero /\
  host_redraw Scenario.rooted_zero = Done Scenario.rooted_zero /\
  host_update (currentId Scenario.rooted_zero) VUndef Scenario.rooted_zero
  <> Done Scenario.rooted_zero.
Proof.
  split; [vm_compute; reflexivity|].
  split; [vm_compute; reflexivity|].
  split; [vm_compute; reflexivity|].
  split; [apply redraw_falsy; vm_compute; reflexivity|].
  intros H.
  apply (f_equal (fun o => match o with
                           | Done w => map g_role (g_nodes w)
                           | _ => []
                           end)) in H.
  vm_compute in H. discriminate H.
Qed.

(** [reload()] empties the registry but keeps [currentId]: a [redraw()]
    right after it finds a current root identifier, looks its node up and
    throws. *)
Lemma redraw_after_reload_throws :
  currentId (reload Scenario.rooted_A) = VStr "A" /\
  nodeData (reload Scenario.rooted_A) = ∅ /\
  host_redraw (reload Scenario.rooted_A) = Thrown (reload Scenario.rooted_A).
Proof.
  split; [vm_compute; reflexivity|]. split; [reflexivity|].
  rewrite redraw_truthy by (vm_compute; reflexivity).
  unfold _update, reference_pos, registry_get, nodeData_get. simpl nodeData.
  by rewrite lookup_empty.
Qed.

(** C6, at a root [{id: 0}] rendered twice ([setRoot], then [resize]): the
    second render pass changes its identifier from 0 to 1.  The same happens
    to the identifier 0 that the key function itself gives to the first
    object rendered without one. *)
Theorem node_key_rekeys_zero :
  Scenario.run [SetRoot (Some Scenario.zero); Resize 50 50] Scenario.start
  = Done Scenario.resized_zero /\
  id (store Scenario.rooted_zero Scenario.zero) = VNum 0 /\
  id (store Scenario.resized_zero Scenario.zero) = VNum 1 /\
  Scenario.run [SetRoot (Some Scenario.anon); Resize 50 50] Scenario.start
  = Done Scenario.resized_anon /\
  id (store Scenario.start Scenario.anon) = VUndef /\
  id (store Scenario.rooted_anon Scenario.anon) = VNum 0 /\
  id (store Scenario.resized_anon Scenario.anon) = VNum 1.
Proof.
  split; [vm_compute; reflexivity|].
  split; [vm_compute; reflexivity|].
  split; [vm_compute; reflexivity|].
  split; [vm_compute; reflexivity|].
  split; [vm_compute; reflexivity|].
  split; vm_compute; reflexivity.
Qed.

(** C3, at [toggle(0)] on the fetched child [{id: 0}] of the root "A": no
    fetch is made and the flag is negated, but the reference position of the
    render pass is the root's, (50, 50), not the toggled node's, (100, 50).
    The element of "B", created by the pass that opened the node, sits at
    the root's position accordingly. *)
Theorem toggle_zero_reference :
  Scenario.run Scenario.open_zero Scenario.start = Done Scenario.zero_opened /\
  nodeData Scenario.zero_opened !! to_key (VNum 0) = Some Scenario.zero /\
  _children (store Scenario.zero_opened Scenario.zero) = Some [Scenario.b] /\
  (exists v' : view,
     host_toggle (VNum 0) Scenario.zero_opened
     = host_update (VStr "A") (VNum 0) v' /\
     fetches v' = fetches Scenario.zero_opened /\
     isOpened (store v' Scenario.zero)
     = negate (isOpened (store Scenario.zero_opened Scenario.zero)) /\
     reference_pos (VNum 0) v' = Some (50, 50) /\
     _pos (Some (store v' Scenario.zero)) = Some (100, 50) /\
     _pos (Some (store v' Scenario.a)) = Some (50, 50)) /\
  map (fun e => (g_datum e, g_transform e)) (g_nodes Scenario.zero_opened)
  = [(Scenario.a, Some (0, 0)); (Scenario.zero, Some (50, 50));
     (Scenario.b, Some (50, 50))].
Proof.
  split; [vm_compute; reflexivity|].
  split; [vm_compute; reflexivity|].
  split; [vm_compute; reflexivity|].
  split; [|vm_compute; reflexivity].
  exists (set_store
            (<[Scenario.zero :=
                 set_isOpened
                   (negate (isOpened (store Scenario.zero_opened Scenario.zero)))
                   (store Scenario.zero_opened Scenario.zero)]>
               (store Scenario.zero_opened)) Scenario.zero_opened).
  split; [vm_compute; reflexivity|].
  split; [vm_compute; reflexivity|].
  split; [vm_compute; reflexivity|].
  split; [vm_compute; reflexivity|].
  split; vm_compute; reflexivity.
Qed.

(** ** An orientation that is neither of the two *)

Section Orientation.

Variable prune_nodes : (loc -> node) -> option loc -> (loc -> node) * option loc.
Variable tree_xy : Z * Z -> (loc -> node) -> list loc -> loc -> pos.
Variable fuel : nat.

Lemma NodeView_orientation_other (k : string) :
  k <> "top-to-bottom" -> k <> "left-to-right" -> NodeView_orientation k = None.
Proof.
  intros H1 H2. unfold NodeView_orientation.
  destruct (String.eqb_spec k "top-to-bottom"); [done|].
  by destruct (String.eqb_spec k "left-to-right").
Qed.

Lemma no_position v d :
  orientation v = None ->
  this_x v d = None /\ this_y v d = None /\ _translate v d = None /\
  forall t, diagonal v d t = None.
Proof.
  intros H. unfold diagonal, _translate, this_x, this_y. rewrite H. done.
Qed.

Lemma hierarchy_root h p ns :
  D3.hierarchy fuel h [p] = Some ns -> exists ns', ns = p :: ns'.
Proof.
  destruct fuel as [|f]; simpl; [done|].
  destruct (D3.hierarchy f h _) as [ns'|]; simpl; [|done].
  intros [= <-]. eauto.
Qed.

End Orientation.


(** ** Counting what a keyed join leaves *)

Section Join.

Context {E D : Type}.

Lemma keys_length {S : Type} (key : S -> D -> S * string) s ds :
  length (D3.keys key s ds).2 = length ds.
Proof. revert s. induction ds as [|d ds IH]; intros s; simpl; [done|by rewrite IH]. Qed.

Lemma datum_of_is_Some (k : string) ks (ds : list D) :
  length ks = length ds -> (is_Some (D3.datum_of k ks ds) <-> k ∈ ks).
Proof.
  revert ds. induction ks as [|k' ks IH]; intros [|d ds] Hlen; simpl in *;
    try discriminate.
  - split; [by intros [? ?]|by intros ?%elem_of_nil].
  - destruct (decide (k = k')) as [->|Hne].
    + split; [intros _; apply list_elem_of_here|eauto].
    + rewrite IH by lia. rewrite elem_of_cons. tauto.
Qed.

Lemma filter_agree (P Q : string -> Prop)
    `{!forall k, Decision (P k)} `{!forall k, Decision (Q k)} (l : list string) :
  (forall k, k ∈ l -> (P k <-> Q k)) -> filter P l = filter Q l.
Proof.
  induction l as [|a l IH]; intros Hagree; [done|].
  rewrite !filter_cons.
  rewrite IH by (intros k Hk; apply Hagree; by apply list_elem_of_further).
  pose proof (Hagree a (list_elem_of_here _ _)) as Ha.
  destruct (decide (P a)), (decide (Q a)); tauto || done.
Qed.

Lemma count_split (k : string) (A seen : list string) (l : list string) :
  NoDup l ->
  length (filter (fun k' => (k' ∈ (k :: A)) /\ (k' ∉ seen)) l)
  = ((if decide ((k ∉ seen) /\ (k ∈ l)) then 1 else 0)
     + length (filter (fun k' => (k' ∈ A) /\ (k' ∉ (k :: seen))) l))%nat.
Proof.
  induction 1 as [|a l Ha Hnd IH].
  - simpl. case_decide as Hd; [|done]. destruct Hd as [_ Hd%elem_of_nil]. done.
  - rewrite !filter_cons. destruct (decide (a = k)) as [->|Hne].
    + rewrite (decide_False (P := (k ∈ A) /\ (k ∉ (k :: seen)))).
      2:{ intros [_ Hd]. apply Hd, list_elem_of_here. }
      rewrite (filter_agree (fun k' => (k' ∈ (k :: A)) /\ (k' ∉ seen))
                            (fun k' => (k' ∈ A) /\ (k' ∉ (k :: seen))) l).
      2:{ intros x Hx. assert (x <> k) by (intros ->; done).
          rewrite !elem_of_cons. intuition congruence. }
      destruct (decide (k ∉ seen)) as [Hs|Hs].
      * rewrite decide_True by (split; [apply list_elem_of_here|done]).
        rewrite decide_True by (split; [done|apply list_elem_of_here]).
        done.
      * rewrite decide_False by (intros [_ ?]; done).
        rewrite decide_False by (intros [? _]; done).
        done.
    + assert (Hiff : ((a ∈ (k :: A)) /\ (a ∉ seen)) <-> ((a ∈ A) /\ (a ∉ (k :: seen)))).
      { rewrite !elem_of_cons. intuition congruence. }
      assert (Hk : ((k ∉ seen) /\ (k ∈ (a :: l))) <-> ((k ∉ seen) /\ (k ∈ l))).
      { rewrite elem_of_cons. intuition congruence. }
      destruct (decide ((a ∈ A) /\ (a ∉ (k :: seen)))) as [Hin|Hout].
      * rewrite decide_True by (by apply Hiff). simpl. rewrite IH.
        destruct (decide ((k ∉ seen) /\ (k ∈ l))) as [H1|H1].
        -- rewrite decide_True by (by apply Hk). lia.
        -- rewrite decide_False by (by rewrite Hk). lia.
      * rewrite decide_False by (by rewrite Hiff). rewrite IH.
        destruct (decide ((k ∉ seen) /\ (k ∈ l))) as [H1|H1].
        -- rewrite decide_True by (by apply Hk). lia.
        -- rewrite decide_False by (by rewrite Hk). lia.
Qed.

Lemma updated_count seen ks_new (ds : list D) (old : list (string * E)) :
  NoDup ks_new -> length ks_new = length ds ->
  length (filter (fun eo : E * option D => is_Some eo.2)
                 (D3.join_old seen ks_new ds old))
  = length (filter (fun k => (k ∈ map fst old) /\ (k ∉ seen)) ks_new).
Proof.
  intros Hnd Hlen. revert seen.
  induction old as [|[k e] old IH]; intros seen; simpl.
  - rewrite (filter_agree _ (fun _ => False) ks_new).
    2:{ intros x _. rewrite elem_of_nil. tauto. }
    clear. induction ks_new as [|a l IHl]; [done|].
    rewrite filter_cons. by rewrite decide_False by tauto.
  - rewrite filter_cons, count_split by done. simpl. rewrite <- IH.
    destruct (decide (k ∈ seen)) as [Hs|Hs].
    + rewrite decide_False by (by intros [? ?]).
      rewrite decide_False by (intros [? _]; done). done.
    + destruct (decide (k ∈ ks_new)) as [Hin|Hout].
      * rewrite decide_True by (by apply datum_of_is_Some).
        rewrite decide_True by done. done.
      * rewrite decide_False by (by rewrite datum_of_is_Some).
        rewrite decide_False by (intros [_ ?]; done). done.
Qed.

Lemma entered_count seen ks_old (new : list (string * D)) :
  NoDup (map fst new) -> (forall k, k ∈ map fst new -> k ∉ seen) ->
  length (D3.join_enter seen ks_old new)
  = length (filter (fun k => k ∉ ks_old) (map fst new)).
Proof.
  revert seen. induction new as [|[k d] new IH]; intros seen Hnd Hseen; simpl;
    [done|].
  simpl in Hnd. apply NoDup_cons in Hnd as [Hk Hnd].
  rewrite decide_False by (apply Hseen; simpl; apply list_elem_of_here).
  rewrite filter_cons. rewrite length_app. rewrite IH.
  - destruct (decide (k ∈ ks_old)).
    + by rewrite decide_False by (intros ?; done).
    + by rewrite decide_True by done.
  - done.
  - intros k' Hk'. apply not_elem_of_cons. split.
    + intros ->. done.
    + apply Hseen. simpl. by apply list_elem_of_further.
Qed.

Lemma filter_complement_length (P : string -> Prop)
    `{!forall k, Decision (P k)} (l : list string) :
  (length (filter P l) + length (filter (fun k => ~ P k) l) = length l)%nat.
Proof.
  induction l as [|a l IH]; [done|].
  rewrite !filter_cons. destruct (decide (P a)).
  - rewrite decide_False by naive_solver. simpl. lia.
  - rewrite decide_True by done. simpl. lia.
Qed.

(** With distinct keys on the data, the elements that stay and the elements
    that enter are as many as the data. *)
Lemma join_count ks_new (ds : list D) ks_old (es : list E) :
  NoDup ks_new -> length ks_new = length ds -> length ks_old = length es ->
  (length (filter (fun eo : E * option D => is_Some eo.2)
                  (D3.join_old [] ks_new ds (zip ks_old es)))
   + length (D3.join_enter [] ks_old (zip ks_new ds)) = length ds)%nat.
Proof.
  intros Hnd Hn Ho.
  assert (H1 : map fst (zip ks_old es) = ks_old).
  { apply (fst_zip ks_old es). lia. }
  assert (H2 : map fst (zip ks_new ds) = ks_new).
  { apply (fst_zip ks_new ds). lia. }
  rewrite updated_count by done. rewrite entered_count.
  - rewrite H1, H2.
    rewrite (filter_agree (fun k => (k ∈ ks_old) /\ k ∉ []) (fun k => k ∈ ks_old)).
    2:{ intros k _. split; [by intros [? _]|]. intros ?.
        split; [done|apply not_elem_of_nil]. }
    rewrite filter_complement_length. done.
  - by rewrite H2.
  - intros k _. apply not_elem_of_nil.
Qed.

End Join.
(** ** The walk of the layout and its links *)

Section Tree.

Lemma hierarchy_links f h stack ns :
  D3.hierarchy f h stack = Some ns ->
  ns ≡ₚ stack ++ map snd (D3.links h ns).
Proof.
  revert stack ns. induction f as [|f IH]; intros stack ns; simpl; [done|].
  destruct stack as [|n rest]; [by intros [= <-]|].
  destruct (D3.hierarchy f h (kids (h n) ++ rest)) as [ns'|] eqn:E; simpl; [|done].
  intros [= <-]. apply IH in E. simpl.
  rewrite map_app, map_map. simpl. rewrite map_id.
  rewrite E at 1. apply Permutation_skip.
  rewrite <- !app_assoc. rewrite (app_assoc rest). rewrite (app_assoc (kids _)).
  apply Permutation_app_tail. apply Permutation_app_comm.
Qed.

(** A walk that returns within a budget returns the same within any
    larger one. *)
Lemma hierarchy_mono f f' h stack ns :
  (f <= f')%nat -> D3.hierarchy f h stack = Some ns ->
  D3.hierarchy f' h stack = Some ns.
Proof.
  revert f' stack ns. induction f as [|f IH]; intros f' stack ns Hle; simpl;
    [done|].
  destruct f' as [|f']; [lia|]. simpl.
  destruct stack as [|n rest]; [done|].
  destruct (D3.hierarchy f h (kids (h n) ++ rest)) as [ns'|] eqn:E; simpl;
    [|done].
  intros [= <-]. by rewrite (IH f' _ ns') by (lia || done).
Qed.

Lemma hierarchy_links_length f h p ns :
  D3.hierarchy f h [p] = Some ns ->
  length (D3.links h ns) = (length ns - 1)%nat.
Proof.
  intros H%hierarchy_links. apply Permutation_length in H.
  simpl in H. rewrite length_map in H. lia.
Qed.

Lemma hierarchy_links_NoDup {K : Type} (key : loc -> K) f h p ns :
  D3.hierarchy f h [p] = Some ns ->
  NoDup (map key ns) ->
  NoDup (map (fun d : loc * loc => key d.2) (D3.links h ns)).
Proof.
  intros H%hierarchy_links Hnd.
  assert (Hp : map key ns ≡ₚ key p :: map key (map snd (D3.links h ns))).
  { change (map key ns ≡ₚ map key ([p] ++ map snd (D3.links h ns))).
    by apply Permutation_map. }
  rewrite Hp in Hnd. apply NoDup_cons in Hnd as [_ Hnd].
  by rewrite map_map in Hnd.
Qed.

Lemma links_ext h h' ns :
  (forall n, kids (h' n) = kids (h n)) -> D3.links h' ns = D3.links h ns.
Proof.
  intros H. unfold D3.links. induction ns as [|n ns IH]; simpl; [done|].
  by rewrite IH, H.
Qed.

End Tree.
(** ** The two halves of a render pass *)

Lemma node_key_kids s d l : kids ((node_key s d).1.1 l) = kids (s.1 l).
Proof.
  unfold node_key. destruct (truthy (id (s.1 d))); [done|]. simpl.
  destruct (decide (l = d)) as [->|Hne].
  - by rewrite fn_lookup_insert.
  - by rewrite fn_lookup_insert_ne.
Qed.

Lemma keys_node_key_kids ds s l :
  kids ((D3.keys node_key s ds).1.1 l) = kids (s.1 l).
Proof.
  revert s. induction ds as [|d ds IH]; intros s; simpl; [done|].
  by rewrite IH, node_key_kids.
Qed.

Lemma keys_node_key_truthy ds s :
  (forall n, n ∈ ds -> truthy (id (s.1 n)) = true) ->
  D3.keys node_key s ds = (s, map (fun n => to_key (id (s.1 n))) ds).
Proof.
  induction ds as [|d ds IH]; intros H; simpl; [done|].
  rewrite node_key_truthy by (apply H, list_elem_of_here). simpl.
  rewrite IH by (intros n Hn; apply H; by apply list_elem_of_further). done.
Qed.

Lemma keys_link_key h ds :
  D3.keys link_key h ds = (h, map (fun d : loc * loc => to_key (id (h d.2))) ds).
Proof. induction ds as [|d ds IH]; simpl; [done|]. by rewrite IH. Qed.

Lemma filter_map_length {A B : Type} (f : A -> B) (P : B -> Prop) (Q : A -> Prop)
    `{!forall b, Decision (P b)} `{!forall a, Decision (Q a)} (l : list A) :
  (forall a, P (f a) <-> Q a) ->
  length (filter P (map f l)) = length (filter Q l).
Proof.
  intros Hpq. induction l as [|a l IH]; [done|]. simpl.
  rewrite !filter_cons. pose proof (Hpq a).
  destruct (decide (P (f a))), (decide (Q a)); simpl; tauto || by rewrite IH.
Qed.

Lemma filter_all_length {A : Type} (P : A -> Prop)
    `{!forall a, Decision (P a)} (l : list A) :
  (forall a, P a) -> length (filter P l) = length l.
Proof.
  intros Hp. induction l as [|a l IH]; [done|].
  rewrite filter_cons_True by done. simpl. by rewrite IH.
Qed.

Lemma _translate_ext v v' p :
  orientation v' = orientation v -> _translate v' p = _translate v p.
Proof. intros H. unfold _translate, this_x, this_y. by rewrite H. Qed.

Lemma diagonal_ext v v' p q :
  orientation v' = orientation v -> diagonal v' p q = diagonal v p q.
Proof. intros H. unfold diagonal. by rewrite !(_translate_ext v v'). Qed.

Lemma _translate_Some v o p :
  orientation v = Some o -> exists t, _translate v p = Some t.
Proof.
  intros H. unfold _translate, this_x, this_y. rewrite H. destruct o; eauto.
Qed.

Lemma diagonal_Some v o p q :
  orientation v = Some o -> exists t, diagonal v p q = Some t.
Proof.
  intros H. unfold diagonal.
  destruct (_translate_Some v o p H) as [t ->].
  destruct (_translate_Some v o q H) as [t' ->]. eauto.
Qed.

Lemma _translate_is_Some v o p :
  orientation v = Some o -> is_Some (_translate v p).
Proof. intros H. destruct (_translate_Some v o p H) as [t ->]. eauto. Qed.

Lemma diagonal_is_Some v o p q :
  orientation v = Some o -> is_Some (diagonal v p q).
Proof. intros H. destruct (diagonal_Some v o p q H) as [t ->]. eauto. Qed.

Lemma _pos_translate_Some v o n :
  orientation v = Some o -> is_Some (_pos (Some n) ≫= _translate v).
Proof.
  intros H. simpl. destruct (_translate_Some v o (default 0 (x n), default 0 (y n)) H)
    as [t Ht]. rewrite Ht. eauto.
Qed.

Lemma attr_Some {A B : Type} (fn : A -> option B) (sel : list A) :
  (forall a, is_Some (fn a)) -> D3.attr fn sel = true.
Proof.
  intros H. unfold D3.attr. induction sel as [|a sel IH]; simpl; [done|].
  rewrite IH. by rewrite bool_decide_eq_true_2 by auto.
Qed.

(** With an orientation, every projection made for an attribute succeeds. *)
#[local] Ltac attr_true Ho :=
  rewrite attr_Some
    by (intros ?;
        first [ eapply _pos_translate_Some; simpl; exact Ho
              | eapply _translate_is_Some; simpl; exact Ho
              | eapply diagonal_is_Some; simpl; exact Ho ]).

(** The transition of a selection, as [_updateNodes], [_removeNodes] and the
    link methods start one on the elements of role [r]. *)
#[local] Abbreviation g_mark r b :=
  (fun e : gnode => if decide (g_role e = r)
                    then GNode (g_datum e) (g_transform e) b (g_role e) else e).
#[local] Abbreviation l_mark r b :=
  (fun e : plink => if decide (l_role e = r)
                    then PLink (l_datum e) (l_d e) b (l_role e) else e).

Lemma _updateNodes_Some r v o :
  orientation v = Some o -> "update-nodes" ∈ handlers v ->
  _updateNodes r v = Done (set_g_nodes (map (g_mark r false) (g_nodes v)) v).
Proof.
  intros Ho Hu. unfold _updateNodes. attr_true Ho. simpl handlers.
  by rewrite decide_True.
Qed.

Lemma _removeNodes_Some p v o :
  orientation v = Some o ->
  _removeNodes p v = Done (set_g_nodes (map (g_mark InExit true) (g_nodes v)) v).
Proof.
  intros Ho. unfold _removeNodes. attr_true Ho. f_equal.
  unfold set_g_nodes. simpl. f_equal. rewrite map_map. apply map_ext.
  intros e. destruct (decide (g_role e = InExit)) as [Hr|Hr]; simpl.
  - by rewrite decide_True.
  - by rewrite decide_False.
Qed.

Lemma map_id_on {A : Type} (P : A -> Prop) (f : A -> A) (l : list A) :
  Forall P l -> (forall a, P a -> f a = a) -> map f l = l.
Proof.
  intros Hl Hf. induction Hl as [|a l Ha _ IH]; simpl; [done|].
  by rewrite IH, Hf.
Qed.

Lemma _addNodes_Some enter p v o :
  orientation v = Some o ->
  "add-nodes" ∈ handlers v -> "update-nodes" ∈ handlers v ->
  Forall (fun e => g_role e <> InEnter) (g_nodes v) ->
  exists t,
    _translate v p = Some t /\
    _addNodes enter p v
    = Done (set_g_nodes
              (g_nodes v ++ map (fun d => GNode d (Some t) false InEnter) enter) v).
Proof.
  intros Ho Ha Hu Hr. destruct (_translate_Some v o p Ho) as [t Ht].
  exists t. split; [done|].
  unfold _addNodes. simpl handlers.
  destruct enter as [|d ds].
  - rewrite decide_True by done.
    rewrite (_updateNodes_Some _ _ o) by done. f_equal.
    unfold set_g_nodes. simpl. f_equal. rewrite !app_nil_r.
    apply (map_id_on _ _ _ Hr). intros e He. by rewrite decide_False.
  - rewrite (_translate_ext v) by done. rewrite Ht.
    rewrite decide_True by done.
    rewrite (_updateNodes_Some _ _ o) by done. f_equal.
    unfold set_g_nodes. simpl g_nodes. f_equal.
    rewrite map_map, map_app. f_equal.
    + apply (map_id_on _ _ _ Hr). intros e He.
      rewrite (decide_False (P := g_role e = InEnter)) by done.
      by rewrite decide_False.
    + simpl. f_equal. rewrite map_map. by apply map_ext.
Qed.

Lemma _updateLinks_Some r v o :
  orientation v = Some o ->
  _updateLinks r v = Done (set_path_links (map (l_mark r false) (path_links v)) v).
Proof. intros Ho. unfold _updateLinks. by attr_true Ho. Qed.

Lemma _removeLinks_Some p v o :
  orientation v = Some o ->
  _removeLinks p v
  = Done (set_path_links (map (l_mark InExit true) (path_links v)) v).
Proof.
  intros Ho. unfold _removeLinks. attr_true Ho. f_equal.
  unfold set_path_links. simpl. f_equal. rewrite map_map. apply map_ext.
  intros e. destruct (decide (l_role e = InExit)) as [Hr|Hr]; simpl.
  - by rewrite decide_True.
  - by rewrite decide_False.
Qed.

Lemma _addLinks_Some enter p v o :
  orientation v = Some o ->
  Forall (fun e => l_role e <> InEnter) (path_links v) ->
  exists t,
    diagonal v p p = Some t /\
    _addLinks enter p v
    = Done (set_path_links
              (path_links v ++ map (fun d => PLink d (Some t) false InEnter) enter) v).
Proof.
  intros Ho Hr. destruct (diagonal_Some v o p p Ho) as [t Ht].
  exists t. split; [done|].
  unfold _addLinks.
  destruct enter as [|d ds].
  - rewrite (_updateLinks_Some _ _ o) by done. f_equal.
    unfold set_path_links. simpl. f_equal. rewrite !app_nil_r.
    apply (map_id_on _ _ _ Hr). intros e He. by rewrite decide_False.
  - rewrite (diagonal_ext v) by done. rewrite Ht.
    rewrite (_updateLinks_Some _ _ o) by done. f_equal.
    unfold set_path_links. simpl path_links. f_equal.
    rewrite map_map, map_app. f_equal.
    + apply (map_id_on _ _ _ Hr). intros e He.
      rewrite (decide_False (P := l_role e = InEnter)) by done.
      by rewrite decide_False.
    + simpl. f_equal. rewrite map_map. by apply map_ext.
Qed.

(** The elements a join leaves in the container are updated or exiting. *)
Lemma data_nodes_roles ds v :
  Forall (fun e => g_role e = InUpdate \/ g_role e = InExit)
         (g_nodes (data_nodes ds v).1).
Proof.
  unfold data_nodes. simpl. apply Forall_forall. intros e He.
  apply list_elem_of_In, in_map_iff in He as ([e0 [d|]] & <- & _); simpl; auto.
Qed.

Lemma data_links_roles ds v :
  Forall (fun e => l_role e = InUpdate \/ l_role e = InExit)
         (path_links (data_links ds v).1).
Proof.
  unfold data_links. simpl. apply Forall_forall. intros e He.
  apply list_elem_of_In, in_map_iff in He as ([e0 [d|]] & <- & _); simpl; auto.
Qed.

Lemma filter_map_length_on {A B : Type} (f : A -> B) (P : B -> Prop)
    (Q R : A -> Prop)
    `{!forall b, Decision (P b)} `{!forall a, Decision (Q a)} (l : list A) :
  Forall R l -> (forall a, R a -> (P (f a) <-> Q a)) ->
  length (filter P (map f l)) = length (filter Q l).
Proof.
  intros Hl Hpq. induction Hl as [|a l Ha _ IH]; [done|]. simpl.
  rewrite !filter_cons. pose proof (Hpq a Ha).
  destruct (decide (P (f a))), (decide (Q a)); simpl; tauto || by rewrite IH.
Qed.

(** The three node steps of a render pass, with an orientation: what is
    left once the exits have ended is the updated and the entered
    elements. *)
Lemma node_steps_count enter p q v o :
  orientation v = Some o ->
  "update-nodes" ∈ handlers v -> "add-nodes" ∈ handlers v ->
  Forall (fun e => g_role e = InUpdate \/ g_role e = InExit) (g_nodes v) ->
  exists g,
    then_ (_updateNodes InUpdate v)
          (fun v => then_ (_addNodes enter p v) (_removeNodes q))
    = Done (set_g_nodes g v) /\
    length (filter (fun e => g_exiting e = false) g)
    = (length (filter (fun e => g_role e = InUpdate) (g_nodes v))
       + length enter)%nat.
Proof.
  intros Ho Hu Ha Hr.
  rewrite (_updateNodes_Some _ _ o) by done. simpl then_.
  destruct (_addNodes_Some enter p
              (set_g_nodes (map (g_mark InUpdate false) (g_nodes v)) v) o)
    as (t & _ & ->); try done.
  { simpl. apply Forall_forall. intros e He.
    apply list_elem_of_In, in_map_iff in He as (e0 & <- & He0).
    destruct (proj1 (Forall_forall _ _) Hr e0) as [E|E];
      [by apply list_elem_of_In| |]; rewrite E.
    - by rewrite decide_True.
    - rewrite decide_False by done. by rewrite E. }
  simpl then_. rewrite (_removeNodes_Some _ _ o) by done.
  eexists. split; [reflexivity|].
  simpl g_nodes. rewrite map_app, filter_app, length_app, !map_map. f_equal.
  - apply (filter_map_length_on _ _ _ _ _ Hr). intros e [E|E]; rewrite E.
    + simpl. done.
    + simpl. rewrite E. simpl. split; done.
  - rewrite (filter_map_length _ _ (fun _ : loc => True)).
    + by rewrite (filter_all_length (fun _ : loc => True)).
    + intros d. simpl. done.
Qed.

Lemma link_steps_count enter p q v o :
  orientation v = Some o ->
  Forall (fun e => l_role e = InUpdate \/ l_role e = InExit) (path_links v) ->
  exists l,
    then_ (_updateLinks InUpdate v)
          (fun v => then_ (_addLinks enter p v) (_removeLinks q))
    = Done (set_path_links l v) /\
    length (filter (fun e => l_exiting e = false) l)
    = (length (filter (fun e => l_role e = InUpdate) (path_links v))
       + length enter)%nat.
Proof.
  intros Ho Hr.
  rewrite (_updateLinks_Some _ _ o) by done. simpl then_.
  destruct (_addLinks_Some enter p
              (set_path_links (map (l_mark InUpdate false) (path_links v)) v) o)
    as (t & _ & ->); try done.
  { simpl. apply Forall_forall. intros e He.
    apply list_elem_of_In, in_map_iff in He as (e0 & <- & He0).
    destruct (proj1 (Forall_forall _ _) Hr e0) as [E|E];
      [by apply list_elem_of_In| |]; rewrite E.
    - by rewrite decide_True.
    - rewrite decide_False by done. by rewrite E. }
  simpl then_. rewrite (_removeLinks_Some _ _ o) by done.
  eexists. split; [reflexivity|].
  simpl path_links. rewrite map_app, filter_app, length_app, !map_map. f_equal.
  - apply (filter_map_length_on _ _ _ _ _ Hr). intros e [E|E]; rewrite E.
    + simpl. done.
    + simpl. rewrite E. simpl. split; done.
  - rewrite (filter_map_length _ _ (fun _ : loc * loc => True)).
    + by rewrite (filter_all_length (fun _ : loc * loc => True)).
    + intros d. simpl. done.
Qed.

Lemma _update_nodes_count ns p q v o :
  "update-nodes" ∈ handlers v ->
  "add-nodes" ∈ handlers v ->
  orientation v = Some o ->
  (forall n, n ∈ ns -> truthy (id (store v n)) = true) ->
  NoDup (map (fun n => to_key (id (store v n))) ns) ->
  exists w,
    _update_nodes ns p q v = Done w /\
    length (rendered_nodes w) = length ns /\
    (forall n, kids (store w n) = kids (store v n)) /\
    (forall n, truthy (id (store v n)) = true -> id (store w n) = id (store v n)) /\
    path_links w = path_links v /\ orientation w = orientation v.
Proof.
  intros Hu Ha Ho Htr Hnd.
  unfold _update_nodes.
  destruct (node_steps_count (data_nodes ns v).2 p q (data_nodes ns v).1 o)
    as (g & -> & Hg); try done.
  { apply data_nodes_roles. }
  eexists. split; [reflexivity|].
  set (old := D3.keys node_key (store v, nextId v) (map g_datum (g_nodes v))).
  assert (Hid : forall n, truthy (id (store v n)) = true ->
                          id (old.1.1 n) = id (store v n)).
  { intros n Hn. unfold old. by rewrite keys_node_key_id. }
  assert (Hnew : D3.keys node_key old.1 ns
                 = (old.1, map (fun n => to_key (id (store v n))) ns)).
  { rewrite keys_node_key_truthy.
    - f_equal. apply map_ext_in. intros n Hn%list_elem_of_In.
      by rewrite Hid by auto.
    - intros n Hn. rewrite Hid by auto. auto. }
  split; [|split; [|split; [|split]]].
  - unfold rendered_nodes, settle. simpl g_nodes. rewrite Hg.
    unfold data_nodes. fold old. rewrite Hnew. simpl fst. simpl snd.
    simpl g_nodes.
    set (ks := map (fun n => to_key (id (store v n))) ns).
    rewrite (filter_map_length _ _ (fun eo : gnode * option loc => is_Some eo.2)).
    + apply join_count; [done|apply length_map|].
      unfold old. by rewrite keys_length, length_map.
    + intros [e [d|]]; simpl; [by eauto|].
      split; [discriminate|by intros [? ?]].
  - intros n. unfold data_nodes. fold old. rewrite Hnew. simpl.
    unfold old. by rewrite keys_node_key_kids.
  - intros n Hn. unfold data_nodes. fold old. rewrite Hnew. simpl. by apply Hid.
  - done.
  - done.
Qed.

Lemma _update_links_count ns p q v o :
  orientation v = Some o ->
  NoDup (map (fun d : loc * loc => to_key (id (store v d.2)))
             (D3.links (store v) ns)) ->
  exists w,
    _update_links ns p q v = Done w /\
    length (rendered_links w) = length (D3.links (store v) ns) /\
    g_nodes w = g_nodes v.
Proof.
  intros Ho Hnd.
  unfold _update_links.
  set (ds := D3.links (store v) ns) in *.
  destruct (link_steps_count (data_links ds v).2 p q (data_links ds v).1 o)
    as (l & -> & Hl); try done.
  { apply data_links_roles. }
  eexists. split; [reflexivity|]. split; [|done].
  unfold rendered_links, settle. simpl path_links. rewrite Hl.
  unfold data_links. rewrite !keys_link_key. simpl fst. simpl snd.
  simpl path_links.
  rewrite (filter_map_length _ _ (fun eo : plink * option (loc * loc) => is_Some eo.2)).
  - apply join_count; [done|apply length_map|]. by rewrite !length_map.
  - intros [e [d|]]; simpl; [by eauto|].
    split; [discriminate|by intros [? ?]].
Qed.
(** ** What a render pass leaves rendered *)

Section Rendered.

Variable prune_nodes : (loc -> node) -> option loc -> (loc -> node) * option loc.
Variable tree_xy : Z * Z -> (loc -> node) -> list loc -> loc -> pos.
Variable fuel : nat.

Lemma placed_id (f : loc -> pos) ns h n :
  id (foldr (fun n h => <[n := set_xy (f n) (h n)]> h) h ns n) = id (h n).
Proof.
  induction ns as [|m ns IH]; simpl; [done|].
  destruct (decide (n = m)) as [->|Hne].
  - rewrite fn_lookup_insert. simpl. apply IH.
  - rewrite fn_lookup_insert_ne by done. apply IH.
Qed.

Lemma placed_kids (f : loc -> pos) ns h n :
  kids (foldr (fun n h => <[n := set_xy (f n) (h n)]> h) h ns n) = kids (h n).
Proof.
  induction ns as [|m ns IH]; simpl; [done|].
  destruct (decide (n = m)) as [->|Hne].
  - rewrite fn_lookup_insert. simpl. apply IH.
  - rewrite fn_lookup_insert_ne by done. apply IH.
Qed.

Lemma reference_pos_Some t v :
  is_Some (nodeData v !! to_key (or_else t (currentId v))) ->
  is_Some (reference_pos t v).
Proof.
  intros [l Hl]. unfold reference_pos, registry_get, nodeData_get.
  rewrite Hl. simpl. eauto.
Qed.

(** The two halves one after the other, on a list of nodes with truthy
    identifiers and distinct keys whose links have distinct target keys. *)
Lemma halves_count ns p q v o :
  "update-nodes" ∈ handlers v ->
  "add-nodes" ∈ handlers v ->
  orientation v = Some o ->
  (forall n, n ∈ ns -> truthy (id (store v n)) = true) ->
  NoDup (map (fun n => to_key (id (store v n))) ns) ->
  (forall d, d ∈ D3.links (store v) ns -> d.2 ∈ ns) ->
  NoDup (map (fun d : loc * loc => to_key (id (store v d.2)))
             (D3.links (store v) ns)) ->
  exists w,
    then_ (_update_nodes ns p q v) (_update_links ns p q) = Done w /\
    length (rendered_nodes w) = length ns /\
    length (rendered_links w) = length (D3.links (store v) ns).
Proof.
  intros Hu Ha Ho Htr Hnd Hin Hndl.
  destruct (_update_nodes_count ns p q v o Hu Ha Ho Htr Hnd)
    as (w1 & E1 & Hn1 & Hk1 & Hi1 & Hl1 & Ho1).
  rewrite E1. simpl then_.
  assert (Hlinks : D3.links (store w1) ns = D3.links (store v) ns).
  { by apply links_ext. }
  destruct (_update_links_count ns p q w1 o) as (w2 & E2 & Hn2 & Hg2);
    [by rewrite Ho1| |].
  - rewrite Hlinks.
    erewrite map_ext_in; [exact Hndl|].
    intros d Hd%list_elem_of_In. simpl. rewrite Hi1; [done|].
    apply Htr. by apply Hin.
  - exists w2. split; [exact E2|]. split.
    + unfold rendered_nodes, settle in *. simpl in *. by rewrite Hg2.
    + by rewrite Hn2, Hlinks.
Qed.

(** C2, amended: take a render pass whose handlers are registered, whose
    orientation is one of the two and whose reference node is registered,
    and let the tree returned by [prune-nodes] have the nodes [ns], with
    truthy identifiers of pairwise distinct keys.  The pass returns, and
    once its exit transitions have ended the container holds as many node
    elements as [ns] has nodes and one link element fewer (none when
    [prune-nodes] returns [undefined]). *)
Theorem render_counts (rootId toggleId : value) (v : view) (ns : list loc)
    (o : orient) :
  let pr := prune_nodes (store v) (nodeData_get v (to_key rootId)) in
  "prune-nodes" ∈ handlers v ->
  "update-nodes" ∈ handlers v ->
  "add-nodes" ∈ handlers v ->
  orientation v = Some o ->
  is_Some (nodeData v !! to_key (or_else toggleId (currentId v))) ->
  is_Some (nodeData v !! to_key (or_else toggleId rootId)) ->
  pruned_walk prune_nodes fuel rootId v = Some ns ->
  (forall n, n ∈ ns -> truthy (id (pr.1 n)) = true) ->
  NoDup (map (fun n => to_key (id (pr.1 n))) ns) ->
  exists w,
    _update prune_nodes tree_xy fuel rootId toggleId v = Done w /\
    length (rendered_nodes w) = length ns /\
    length (rendered_links w) = (length ns - 1)%nat.
Proof.
  intros pr Hp Hu Ha Ho Hr1 Hr2 Hw Htr Hnd.
  unfold _update.
  destruct (reference_pos_Some _ _ Hr1) as [prevPos ->].
  simpl handlers. rewrite decide_True by done.
  change (store (set_currentId rootId v)) with (store v). fold pr.
  unfold pruned_walk in Hw. fold pr in Hw.
  set (v1 := set_store pr.1 (set_currentId rootId v)).
  assert (Hlay : exists h,
             match pr.2 with
             | Some r => tree_nodes tree_xy fuel v1 r
             | None => Some (store v1, [])
             end = Some (h, ns) /\
             (forall n, id (h n) = id (pr.1 n)) /\
             (forall n, kids (h n) = kids (pr.1 n)) /\
             length (D3.links pr.1 ns) = (length ns - 1)%nat /\
             (forall d, d ∈ D3.links pr.1 ns -> d.2 ∈ ns) /\
             NoDup (map (fun d : loc * loc => to_key (id (pr.1 d.2)))
                        (D3.links pr.1 ns))).
  { destruct pr.2 as [r|].
    - unfold tree_nodes. change (store v1) with pr.1. rewrite Hw.
      eexists. split; [reflexivity|].
      split; [intros n; apply placed_id|].
      split; [intros n; apply placed_kids|].
      split; [by eapply hierarchy_links_length|].
      split.
      + intros d Hd. apply hierarchy_links in Hw. rewrite Hw.
        apply elem_of_app. right. apply list_elem_of_In, in_map.
        by apply list_elem_of_In.
      + by apply (hierarchy_links_NoDup (fun n => to_key (id (pr.1 n))) fuel _ r).
    - injection Hw as <-. exists (store v1). split; [done|].
      split; [done|]. split; [done|]. split; [done|].
      split; [by intros d ?%elem_of_nil|apply NoDup_nil_2]. }
  destruct Hlay as (h & -> & Hid & Hkids & Hlen & Hin & Hndl).
  set (v2 := set_store h v1).
  destruct (reference_pos_Some toggleId v2) as [currPos ->]; [exact Hr2|].
  assert (Hlinks : D3.links (store v2) ns = D3.links pr.1 ns).
  { by apply links_ext. }
  destruct (halves_count ns prevPos currPos v2 o) as (w & E & Hn & Hl); try done.
  - intros n Hn. simpl. rewrite Hid. by apply Htr.
  - erewrite map_ext; [exact Hnd|]. intros n. simpl. by rewrite Hid.
  - rewrite Hlinks. exact Hin.
  - rewrite Hlinks. erewrite map_ext; [exact Hndl|].
    intros d. simpl. by rewrite Hid.
  - exists w. split; [exact E|]. split; [exact Hn|].
    by rewrite Hl, Hlinks.
Qed.

End Rendered.

(** The two scenarios of the specification: [setRoot({id: "A"})] alone
    renders one node element and no link element; after [toggle("A")] and
    the resolution of its fetch to "B" and "C", three and two. *)
Example scenario_single_root :
  Scenario.run [SetRoot (Some Scenario.a)] Scenario.start
  = Done Scenario.rooted_A /\
  map g_datum (rendered_nodes Scenario.rooted_A) = [Scenario.a] /\
  rendered_links Scenario.rooted_A = [].
Proof.
  split; [vm_compute; reflexivity|].
  split; vm_compute; reflexivity.
Qed.

Example scenario_opened_root :
  Scenario.run Scenario.open_A Scenario.start = Done Scenario.opened_A /\
  map fst (map_to_list (nodeData Scenario.opened_A)) ≡ₚ ["A"; "B"; "C"] /\
  map g_datum (rendered_nodes Scenario.opened_A)
  = [Scenario.a; Scenario.b; Scenario.c] /\
  map l_datum (rendered_links Scenario.opened_A)
  = [(Scenario.a, Scenario.b); (Scenario.a, Scenario.c)].
Proof.
  split; [vm_compute; reflexivity|].
  split; [vm_compute; by_compute|].
  split; vm_compute; reflexivity.
Qed.

(** A second render pass over the opened root "A": three nodes, two links. *)
Lemma render_counts_witness :
  exists w,
    _update Scenario.prune_opened Scenario.layout 16 (VStr "A") VUndef
      Scenario.opened_A = Done w /\
    length (rendered_nodes w) = 3%nat /\
    length (rendered_links w) = 2%nat.
Proof.
  apply (render_counts Scenario.prune_opened Scenario.layout 16
           (VStr "A") VUndef Scenario.opened_A
           [Scenario.a; Scenario.b; Scenario.c] TopToBottom).
  - by_compute.
  - by_compute.
  - by_compute.
  - vm_compute; reflexivity.
  - apply (bool_decide_unpack _); vm_compute; exact I.
  - apply (bool_decide_unpack _); vm_compute; exact I.
  - vm_compute; reflexivity.
  - intros n Hn.
    repeat (apply elem_of_cons in Hn as [->|Hn]; [vm_compute; reflexivity|]).
    by apply elem_of_nil in Hn.
  - by_compute.
Defined.

(** C2 as stated fails.  Closing the opened root "A" leaves a tree of one
    node, but the pass returns with three node elements and two link
    elements in the container: two nodes and both links are in their exit
    transition and go only when it ends.  And where two nodes of the tree
    have identifiers with the same key, 1 and "1", even then fewer elements
    than nodes are left: two for three nodes, one link for two edges. *)
Lemma render_leaves_other_counts :
  Scenario.run (Scenario.open_A ++ [Toggle (VStr "A")]) Scenario.start
  = Done Scenario.closed_A /\
  pruned_walk Scenario.prune_opened 16 (VStr "A") Scenario.closed_A
  = Some [Scenario.a] /\
  length (g_nodes Scenario.closed_A) = 3%nat /\
  length (path_links Scenario.closed_A) = 2%nat /\
  Scenario.run [SetRoot (Some Scenario.a); Toggle (VStr "A");
                Resolve (VStr "A") (Some [Scenario.one; Scenario.one_str])]
    Scenario.start = Done Scenario.opened_ones /\
  pruned_walk Scenario.prune_opened 16 (VStr "A") Scenario.opened_ones
  = Some [Scenario.a; Scenario.one; Scenario.one_str] /\
  length (rendered_nodes Scenario.opened_ones) = 2%nat /\
  length (rendered_links Scenario.opened_ones) = 1%nat.
Proof.
  split; [vm_compute; reflexivity|].
  split; [vm_compute; reflexivity|].
  split; [vm_compute; reflexivity|].
  split; [vm_compute; reflexivity|].
  split; [vm_compute; reflexivity|].
  split; [vm_compute; reflexivity|].
  split; vm_compute; reflexivity.
Qed.
(** ** A render pass without an orientation *)

Section NoOrientation.

Variable prune_nodes : (loc -> node) -> option loc -> (loc -> node) * option loc.
Variable tree_xy : Z * Z -> (loc -> node) -> list loc -> loc -> pos.
Variable fuel : nat.

Lemma attr_None {A B : Type} (fn : A -> option B) (sel : list A) :
  (forall a, fn a = None) -> D3.attr fn sel = true -> sel = [].
Proof.
  intros H. destruct sel as [|a sel]; [done|]. simpl. rewrite H.
  rewrite bool_decide_eq_false_2 by apply is_Some_None. done.
Qed.

Lemma filter_nil_Forall {A : Type} (P : A -> Prop) `{!forall a, Decision (P a)}
    (l : list A) :
  filter P l = [] -> Forall (fun a => ~ P a) l.
Proof.
  induction l as [|a l IH]; [done|]. rewrite filter_cons.
  destruct (decide (P a)); [done|]. intros Hnil. constructor; auto.
Qed.

Lemma filter_mark_nil {A : Type} (P : A -> Prop) `{!forall a, Decision (P a)}
    (f : A -> A) (l : list A) :
  (forall a, P (f a) <-> P a) -> filter P (map f l) = [] ->
  Forall (fun a => ~ P a) l.
Proof.
  intros Hf. induction l as [|a l IH]; [done|]. simpl. rewrite filter_cons.
  destruct (decide (P (f a))) as [Hp|Hp]; [done|]. intros Hnil.
  constructor; [by rewrite <- Hf|auto].
Qed.

Lemma set_g_nodes_same v : set_g_nodes (g_nodes v) v = v.
Proof. by destruct v. Qed.

Lemma set_path_links_same v : set_path_links (path_links v) v = v.
Proof. by destruct v. Qed.

Lemma g_mark_role r b e :
  g_role (if decide (g_role e = r)
          then GNode (g_datum e) (g_transform e) b (g_role e) else e)
  = g_role e.
Proof. by case_decide. Qed.

Lemma l_mark_role r b e :
  l_role (if decide (l_role e = r)
          then PLink (l_datum e) (l_d e) b (l_role e) else e)
  = l_role e.
Proof. by case_decide. Qed.

(** Without an orientation, a step that returns had an empty selection and
    has changed nothing. *)
Lemma _updateNodes_None r v w :
  orientation v = None -> _updateNodes r v = Done w ->
  Forall (fun e => g_role e <> r) (g_nodes v) /\ w = v.
Proof.
  intros Ho. unfold _updateNodes.
  destruct (D3.attr _ _) eqn:E; [|done].
  apply attr_None in E.
  2:{ intros e. simpl. unfold _translate, this_x. simpl. by rewrite Ho. }
  simpl g_nodes in E.
  apply (filter_mark_nil (fun e => g_role e = r)) in E.
  2:{ intros e. by rewrite g_mark_role. }
  case_decide; [|done]. intros [= <-]. split; [done|].
  rewrite (map_id_on _ _ _ E); [apply set_g_nodes_same|].
  intros e He. by rewrite decide_False.
Qed.

Lemma _addNodes_None enter p v w :
  orientation v = None -> _addNodes enter p v = Done w ->
  enter = [] /\ Forall (fun e => g_role e <> InEnter) (g_nodes v) /\ w = v.
Proof.
  intros Ho. unfold _addNodes. destruct enter as [|d ds].
  - simpl handlers. case_decide; [|done]. intros E.
    apply _updateNodes_None in E as [Hr ->]; [|done].
    simpl in Hr. rewrite app_nil_r in Hr. split; [done|]. split; [done|].
    simpl. rewrite app_nil_r. apply set_g_nodes_same.
  - unfold _translate, this_x. simpl. by rewrite Ho.
Qed.

Lemma _removeNodes_None p v w :
  orientation v = None -> _removeNodes p v = Done w ->
  Forall (fun e => g_role e <> InExit) (g_nodes v) /\ w = v.
Proof.
  intros Ho. unfold _removeNodes.
  destruct (D3.attr _ _) eqn:E; [|done].
  apply attr_None in E.
  2:{ intros e. unfold _translate, this_x. simpl. by rewrite Ho. }
  simpl g_nodes in E.
  apply (filter_mark_nil (fun e => g_role e = InExit)) in E.
  2:{ intros e. by rewrite g_mark_role. }
  intros [= <-]. split; [done|].
  assert (Hid : forall b, map (g_mark InExit b) (g_nodes v) = g_nodes v).
  { intros b. apply (map_id_on _ _ _ E). intros e He. by rewrite decide_False. }
  simpl g_nodes. rewrite !Hid. by rewrite !set_g_nodes_same.
Qed.

Lemma _updateLinks_None r v w :
  orientation v = None -> _updateLinks r v = Done w ->
  Forall (fun e => l_role e <> r) (path_links v) /\ w = v.
Proof.
  intros Ho. unfold _updateLinks.
  destruct (D3.attr _ _) eqn:E; [|done].
  apply attr_None in E.
  2:{ intros e. unfold diagonal, _translate, this_x. simpl. by rewrite Ho. }
  simpl path_links in E.
  apply (filter_mark_nil (fun e => l_role e = r)) in E.
  2:{ intros e. by rewrite l_mark_role. }
  intros [= <-]. split; [done|].
  rewrite (map_id_on _ _ _ E); [apply set_path_links_same|].
  intros e He. by rewrite decide_False.
Qed.

Lemma _addLinks_None enter p v w :
  orientation v = None -> _addLinks enter p v = Done w ->
  enter = [] /\ Forall (fun e => l_role e <> InEnter) (path_links v) /\ w = v.
Proof.
  intros Ho. unfold _addLinks. destruct enter as [|d ds].
  - intros H. apply _updateLinks_None in H as [Hr ->]; [|done].
    simpl in Hr. rewrite app_nil_r in Hr. split; [done|]. split; [done|].
    simpl. rewrite app_nil_r. apply set_path_links_same.
  - unfold diagonal, _translate, this_x. simpl. by rewrite Ho.
Qed.

Lemma _removeLinks_None p v w :
  orientation v = None -> _removeLinks p v = Done w ->
  Forall (fun e => l_role e <> InExit) (path_links v) /\ w = v.
Proof.
  intros Ho. unfold _removeLinks.
  destruct (D3.attr _ _) eqn:E; [|done].
  apply attr_None in E.
  2:{ intros e. unfold diagonal, _translate, this_x. simpl. by rewrite Ho. }
  simpl path_links in E.
  apply (filter_mark_nil (fun e => l_role e = InExit)) in E.
  2:{ intros e. by rewrite l_mark_role. }
  intros [= <-]. split; [done|].
  assert (Hid : forall b, map (l_mark InExit b) (path_links v) = path_links v).
  { intros b. apply (map_id_on _ _ _ E). intros e He. by rewrite decide_False. }
  simpl path_links. rewrite !Hid. by rewrite !set_path_links_same.
Qed.

Lemma join_old_length {E D : Type} seen ks (ds : list D) (old : list (string * E)) :
  length (D3.join_old seen ks ds old) = length old.
Proof.
  revert seen. induction old as [|[k e] old IH]; intros seen; simpl; [done|].
  by rewrite IH.
Qed.

Lemma roles_exhausted {A : Type} (role_of : A -> role) (l : list A) :
  Forall (fun e => role_of e = InUpdate \/ role_of e = InExit) l ->
  Forall (fun e => role_of e <> InUpdate) l ->
  Forall (fun e => role_of e <> InExit) l ->
  l = [].
Proof.
  destruct l as [|e l]; [done|]. intros H1 H2 H3.
  apply Forall_cons in H1 as [[?|?] _], H2 as [? _], H3 as [? _]; done.
Qed.

(** Without an orientation, the node half of a render pass returns only
    when the container had no node element and the tree has no node. *)
Lemma _update_nodes_None ns p q v w :
  orientation v = None -> _update_nodes ns p q v = Done w ->
  g_nodes v = [] /\ ns = [] /\
  path_links w = path_links v /\ orientation w = None.
Proof.
  intros Ho. unfold _update_nodes.
  pose proof (data_nodes_roles ns v) as Hroles.
  assert (Hov : orientation (data_nodes ns v).1 = None) by done.
  assert (Hpl : path_links (data_nodes ns v).1 = path_links v) by done.
  assert (Hlen : length (g_nodes (data_nodes ns v).1) = length (g_nodes v)).
  { unfold data_nodes. simpl. rewrite length_map, join_old_length.
    rewrite length_zip_with_r_eq; [done|].
    by rewrite keys_length, length_map. }
  assert (Hent : g_nodes v = [] -> (data_nodes ns v).2 = [] -> ns = []).
  { unfold data_nodes. simpl. intros -> He. simpl in He.
    destruct ns as [|n ns]; [done|]. simpl in He. done. }
  destruct (data_nodes ns v) as [v1 enter]. cbn [fst snd] in *.
  destruct (_updateNodes InUpdate v1) as [w1|w1|] eqn:E1; cbn [then_]; try done.
  apply _updateNodes_None in E1 as [H1 ->]; [|done].
  destruct (_addNodes enter p v1) as [w2|w2|] eqn:E2; cbn [then_]; try done.
  apply _addNodes_None in E2 as (He & _ & ->); [|done].
  intros E3. apply _removeNodes_None in E3 as [H3 ->]; [|done].
  pose proof (roles_exhausted g_role _ Hroles H1 H3) as Hnil.
  assert (Hg : g_nodes v = []).
  { rewrite Hnil in Hlen. symmetry in Hlen. by apply nil_length_inv. }
  auto.
Qed.

(** The same for the link half. *)
Lemma _update_links_None ns p q v w :
  orientation v = None -> _update_links ns p q v = Done w -> path_links v = [].
Proof.
  intros Ho. unfold _update_links.
  set (ds := D3.links (store v) ns).
  pose proof (data_links_roles ds v) as Hroles.
  assert (Hov : orientation (data_links ds v).1 = None) by done.
  assert (Hlen : length (path_links (data_links ds v).1) = length (path_links v)).
  { unfold data_links. simpl. rewrite length_map, join_old_length.
    rewrite length_zip_with_r_eq; [done|].
    by rewrite keys_length, length_map. }
  destruct (data_links ds v) as [v1 enter]. cbn [fst snd] in *.
  destruct (_updateLinks InUpdate v1) as [w1|w1|] eqn:E1; cbn [then_]; try done.
  apply _updateLinks_None in E1 as [H1 ->]; [|done].
  destruct (_addLinks enter p v1) as [w2|w2|] eqn:E2; cbn [then_]; try done.
  apply _addLinks_None in E2 as (He & _ & ->); [|done].
  intros E3. apply _removeLinks_None in E3 as [H3 ->]; [|done].
  pose proof (roles_exhausted l_role _ Hroles H1 H3) as Hnil.
  rewrite Hnil in Hlen. symmetry in Hlen. by apply nil_length_inv.
Qed.

(** The two halves either return or throw: only the layout's walk can keep
    a render pass from coming back. *)
Lemma _update_nodes_returns ns p q v : _update_nodes ns p q v <> Hang.
Proof.
  unfold _update_nodes.
  destruct (_updateNodes InUpdate _) as [w1| |] eqn:E1; simpl; try done.
  - destruct (_addNodes _ p w1) as [w2| |] eqn:E2; simpl; try done.
    + unfold _removeNodes. by case_match.
    + revert E2. unfold _addNodes, _updateNodes.
      repeat (case_match || case_decide); done.
  - revert E1. unfold _updateNodes. repeat (case_match || case_decide); done.
Qed.

Lemma _update_links_returns ns p q v : _update_links ns p q v <> Hang.
Proof.
  unfold _update_links.
  destruct (_updateLinks InUpdate _) as [w1| |] eqn:E1; simpl; try done.
  - destruct (_addLinks _ p w1) as [w2| |] eqn:E2; simpl; try done.
    + unfold _removeLinks. by case_match.
    + revert E2. unfold _addLinks, _updateLinks.
      repeat (case_match || case_decide); done.
  - revert E1. unfold _updateLinks. repeat (case_match || case_decide); done.
Qed.

Lemma _update_None_throws r t v ns :
  orientation v = None ->
  pruned_walk prune_nodes fuel r v = Some ns ->
  g_nodes v <> [] \/ path_links v <> [] \/ ns <> [] ->
  exists w, _update prune_nodes tree_xy fuel r t v = Thrown w.
Proof.
  intros Ho Hw Hne. unfold _update.
  destruct (reference_pos t v) as [prevPos|]; [|eauto].
  simpl handlers. case_decide; [|eauto].
  unfold pruned_walk in Hw.
  change (store (set_currentId r v)) with (store v).
  set (pr := prune_nodes (store v) (nodeData_get v (to_key r))) in *.
  set (v1 := set_store pr.1 (set_currentId r v)).
  assert (Hlay : exists h,
             match pr.2 with
             | Some r0 => tree_nodes tree_xy fuel v1 r0
             | None => Some (store v1, [])
             end = Some (h, ns)).
  { destruct pr.2 as [r0|].
    - unfold tree_nodes. change (store v1) with pr.1. rewrite Hw. eauto.
    - injection Hw as <-. eauto. }
  destruct Hlay as [h ->].
  destruct (reference_pos t _) as [currPos|]; [|eauto].
  destruct (_update_nodes ns prevPos currPos (set_store h v1)) as [w1|w1|] eqn:E1;
    simpl then_.
  - apply _update_nodes_None in E1 as (Hg & Hn & Hl & Ho1); [|done].
    destruct (_update_links ns prevPos currPos w1) as [w2|w2|] eqn:E2.
    + apply _update_links_None in E2; [|done].
      rewrite Hl in E2. simpl in Hg, E2.
      destruct Hne as [?|[?|?]]; done.
    + eauto.
    + by apply _update_links_returns in E2.
  - eauto.
  - by apply _update_nodes_returns in E1.
Qed.

(** C10, amended: with an orientation string that is neither
    ["top-to-bottom"] nor ["left-to-right"], construction returns a view
    whose orientation is [undefined], and a render pass leaves it so.  From
    then on no position can be projected, and every render pass that has an
    element to add, update or remove throws: every pass whose layout returns
    and that finds a node or link element in the container or a node in the
    tree of [prune-nodes]. *)
Theorem invalid_orientation (c : config) (h : loc -> node) :
  c_orientation c <> "top-to-bottom" ->
  c_orientation c <> "left-to-right" ->
  NodeView_orientation (c_orientation c) = None /\
  orientation (constructor c h) = None /\
  forall v : view, orientation v = None ->
    (forall d, this_x v d = None /\ this_y v d = None /\ _translate v d = None /\
               forall t, diagonal v d t = None) /\
    (forall r t, after (fun w => orientation w = None)
                       (_update prune_nodes tree_xy fuel r t v)) /\
    (forall r t ns,
       pruned_walk prune_nodes fuel r v = Some ns ->
       g_nodes v <> [] \/ path_links v <> [] \/ ns <> [] ->
       exists w, _update prune_nodes tree_xy fuel r t v = Thrown w).
Proof.
  intros H1 H2.
  pose proof (NodeView_orientation_other _ H1 H2) as Hn.
  split; [exact Hn|]. split; [exact Hn|].
  intros v Hv. split; [|split].
  - intros d. by apply no_position.
  - intros r t. eapply after_mono; [apply _update_frame|].
    intros w [->|Hf]; [done|]. destruct Hf as (_ & _ & _ & -> & _). done.
  - intros r t ns. by apply _update_None_throws.
Qed.

End NoOrientation.

(** The configuration [{orientation: "diagonal"}]: the render pass of
    [setRoot({id: "A"})] throws when the host shows the root. *)
Lemma invalid_orientation_witness :
  orientation (constructor Scenario.diagonal_cfg Scenario.objects) = None /\
  exists w,
    setRoot Scenario.prune_opened Scenario.layout 16 (Some Scenario.a)
      (Scenario.registered (constructor Scenario.diagonal_cfg Scenario.objects))
    = Thrown w.
Proof.
  assert (H1 : c_orientation Scenario.diagonal_cfg <> "top-to-bottom")
    by discriminate.
  assert (H2 : c_orientation Scenario.diagonal_cfg <> "left-to-right")
    by discriminate.
  destruct (invalid_orientation Scenario.prune_opened Scenario.layout 16
              Scenario.diagonal_cfg Scenario.objects H1 H2) as (_ & Ho & Hv).
  split; [exact Ho|].
  unfold setRoot.
  match goal with
  | |- exists w, _update _ _ _ ?r ?t ?v = Thrown w =>
      destruct (Hv v) as (_ & _ & Hthrow); [vm_compute; reflexivity|];
      apply (Hthrow r t [Scenario.a]);
        [vm_compute; reflexivity|right; right; discriminate]
  end.
Defined.

(** C10 as stated fails.  With the orientation ["diagonal"] and a host that
    shows nothing, the render pass of [setRoot({id: "A"})] on the empty
    container has no element to add, update or remove, projects no position
    and returns. *)
Lemma render_pass_without_position :
  orientation (Scenario.registered
                 (constructor Scenario.diagonal_cfg Scenario.objects)) = None /\
  exists w,
    setRoot Scenario.prune_none Scenario.layout 16 (Some Scenario.a)
      (Scenario.registered (constructor Scenario.diagonal_cfg Scenario.objects))
    = Done w.
Proof.
  split; [vm_compute; reflexivity|].
  eexists. vm_compute. reflexivity.
Qed.

(** ** The registry and the tree that is laid out *)

Lemma keeps_refl h : keeps h h.
Proof. by split. Qed.

Lemma keeps_trans h1 h2 h3 : keeps h1 h2 -> keeps h2 h3 -> keeps h1 h3.
Proof.
  intros [Hc1 Hi1] [Hc2 Hi2]. split.
  - intros l. by rewrite Hc2, Hc1.
  - intros l Hl. rewrite Hi2; [by apply Hi1|]. by rewrite Hi1.
Qed.

Lemma after_and (P Q : view -> Prop) o :
  after P o -> after Q o -> after (fun w => P w /\ Q w) o.
Proof. destruct o; simpl; auto. Qed.

Lemma node_key__children s d l :
  _children ((node_key s d).1.1 l) = _children (s.1 l).
Proof.
  unfold node_key. destruct (truthy (id (s.1 d))); [done|]. simpl.
  destruct (decide (l = d)) as [->|Hne].
  - by rewrite fn_lookup_insert.
  - by rewrite fn_lookup_insert_ne.
Qed.

Lemma keys_node_key__children ds s l :
  _children ((D3.keys node_key s ds).1.1 l) = _children (s.1 l).
Proof.
  revert s. induction ds as [|d ds IH]; intros s; simpl; [done|].
  by rewrite IH, node_key__children.
Qed.

Lemma placed__children (f : loc -> pos) ns h n :
  _children (foldr (fun n h => <[n := set_xy (f n) (h n)]> h) h ns n)
  = _children (h n).
Proof.
  induction ns as [|m ns IH]; simpl; [done|].
  destruct (decide (n = m)) as [->|Hne].
  - rewrite fn_lookup_insert. simpl. apply IH.
  - rewrite fn_lookup_insert_ne by done. apply IH.
Qed.

Lemma forEach_register_registers cs v c :
  c ∈ cs -> is_Some (nodeData (forEach_register cs v) !! to_key (id (store v c))).
Proof.
  revert v. induction cs as [|d cs IH]; intros v Hc; simpl.
  - by apply elem_of_nil in Hc.
  - apply elem_of_cons in Hc as [->|Hc].
    + apply forEach_register_keeps. simpl. rewrite lookup_insert_eq. eauto.
    + apply (IH (set_nodeData _ v)); done.
Qed.

Lemma forEach_register_inv cs v k l :
  nodeData (forEach_register cs v) !! k = Some l ->
  nodeData v !! k = Some l \/ l ∈ cs.
Proof.
  revert v. induction cs as [|d cs IH]; intros v; simpl; [auto|].
  intros [Hl|Hl]%IH.
  - simpl in Hl. destruct (decide (to_key (id (store v d)) = k)) as [<-|Hne].
    + rewrite lookup_insert_eq in Hl. injection Hl as <-.
      right. apply list_elem_of_here.
    + rewrite lookup_insert_ne in Hl by done. auto.
  - right. by apply list_elem_of_further.
Qed.

(** ** What the steps of a render pass do to the store *)

Lemma _updateNodes_store r v : after (fun w => store w = store v) (_updateNodes r v).
Proof. unfold _updateNodes. crush_frame. Qed.

Lemma _addNodes_store e p v : after (fun w => store w = store v) (_addNodes e p v).
Proof. unfold _addNodes, _updateNodes. crush_frame. Qed.

Lemma _removeNodes_store p v : after (fun w => store w = store v) (_removeNodes p v).
Proof. unfold _removeNodes. crush_frame. Qed.

Lemma _updateLinks_store r v : after (fun w => store w = store v) (_updateLinks r v).
Proof. unfold _updateLinks. crush_frame. Qed.

Lemma _addLinks_store e p v : after (fun w => store w = store v) (_addLinks e p v).
Proof. unfold _addLinks, _updateLinks. crush_frame. Qed.

Lemma _removeLinks_store p v : after (fun w => store w = store v) (_removeLinks p v).
Proof. unfold _removeLinks. crush_frame. Qed.

Lemma after_store3 h o1 (k2 k3 : view -> outcome) :
  after (fun w => store w = h) o1 ->
  (forall w, after (fun u => store u = store w) (k2 w)) ->
  (forall w, after (fun u => store u = store w) (k3 w)) ->
  after (fun w => store w = h) (then_ o1 (fun w => then_ (k2 w) k3)).
Proof.
  intros H1 H2 H3.
  eapply after_then_ with (P := fun w => store w = h); [exact H1|auto|].
  intros w Hw. eapply after_then_ with (P := fun w => store w = h).
  - eapply after_mono; [apply H2|]. intros u ->. done.
  - auto.
  - intros u Hu. eapply after_mono; [apply H3|]. intros u' ->. done.
Qed.

Lemma _update_nodes_keeps ns p q v :
  after (fun w => keeps (store v) (store w)) (_update_nodes ns p q v).
Proof.
  unfold _update_nodes.
  eapply after_mono with (P := fun w => store w = store (data_nodes ns v).1).
  - apply after_store3.
    + apply _updateNodes_store.
    + intros w. apply _addNodes_store.
    + intros w. apply _removeNodes_store.
  - intros w ->. unfold data_nodes. simpl. split.
    + intros l. by rewrite !keys_node_key__children.
    + intros l Hl. rewrite keys_node_key_id; [by rewrite keys_node_key_id|].
      by rewrite keys_node_key_id.
Qed.

Lemma _update_links_store ns p q v :
  after (fun w => store w = store v) (_update_links ns p q v).
Proof.
  unfold _update_links.
  eapply after_mono
    with (P := fun w => store w = store (data_links (D3.links (store v) ns) v).1);
    [|by intros w ->].
  apply after_store3.
  - apply _updateLinks_store.
  - intros w. apply _addLinks_store.
  - intros w. apply _removeLinks_store.
Qed.

Section Closed.

Variable prune_nodes : (loc -> node) -> option loc -> (loc -> node) * option loc.
Variable tree_xy : Z * Z -> (loc -> node) -> list loc -> loc -> pos.
Variable fuel : nat.

Hypothesis Hprunes : prunes prune_nodes.

#[local] Abbreviation _update := (_update prune_nodes tree_xy fuel).
#[local] Abbreviation toggle := (toggle prune_nodes tree_xy fuel).
#[local] Abbreviation exec := (exec prune_nodes tree_xy fuel).

Lemma prune_keeps h root : keeps h (prune_nodes h root).1.
Proof.
  destruct (Hprunes h root) as [_ H]. split.
  - intros l. by destruct (H l) as (_ & -> & _).
  - intros l _. by destruct (H l) as (-> & _).
Qed.

Lemma tree_nodes_keeps v r h ns :
  tree_nodes tree_xy fuel v r = Some (h, ns) -> keeps (store v) h.
Proof.
  unfold tree_nodes. destruct (D3.hierarchy _ _ _) as [ns'|]; [|done].
  intros [= <- <-]. split.
  - intros l. apply placed__children.
  - intros l _. apply placed_id.
Qed.

Lemma _update_keeps r t v :
  after (fun w => keeps (store v) (store w)) (_update r t v).
Proof.
  unfold _update.
  destruct (reference_pos t v); [|apply keeps_refl].
  case_decide; [|apply keeps_refl].
  change (store (set_currentId r v)) with (store v).
  set (pr := prune_nodes (store v) (nodeData_get v (to_key r))).
  pose proof (prune_keeps (store v) (nodeData_get v (to_key r))) as Hpr.
  fold pr in Hpr.
  set (v1 := set_store pr.1 (set_currentId r v)).
  destruct (match pr.2 with Some _ => _ | None => _ end) as [[h ns]|] eqn:E;
    [|done].
  assert (Hh : keeps (store v) h).
  { destruct pr.2 as [r0|].
    - apply tree_nodes_keeps in E. by eapply keeps_trans.
    - by injection E as <- <-. }
  destruct (reference_pos _ _); [|exact Hh].
  eapply after_then_ with (P := fun w => keeps (store v) (store w)).
  - eapply after_mono; [apply _update_nodes_keeps|].
    intros w Hw. by eapply keeps_trans.
  - auto.
  - intros w Hw. eapply after_mono; [apply _update_links_store|].
    intros u ->. done.
Qed.

(** A closed state stays closed when the registry only grows by what is
    registered, the store keeps the trees, and the current root is
    registered. *)
Lemma closed_ext v w :
  closed v -> nodeData w = nodeData v ->
  currentId w = VUndef \/ is_Some (nodeData v !! to_key (currentId w)) ->
  keeps (store v) (store w) ->
  closed w.
Proof.
  intros (H1 & H2 & H3) Hn Hc [Hch Hid].
  assert (Hreg : forall l, registered_id v l -> registered_id w l).
  { intros l [Ht Hk]. unfold registered_id. rewrite Hid by done.
    by rewrite Hn. }
  split; [|split].
  - intros k l Hl. rewrite Hn in Hl. eauto.
  - intros l cs c Hl Hin. rewrite Hch in Hl. eauto.
  - by rewrite Hn.
Qed.

Lemma _update_closed r t v :
  closed v -> r = currentId v \/ is_Some (nodeData v !! to_key r) ->
  after closed (_update r t v).
Proof.
  intros Hv Hr.
  eapply after_mono;
    [exact (after_and _ _ _ (_update_frame prune_nodes tree_xy fuel r t v)
                            (_update_keeps r t v))|].
  intros w [[->|Hf] Hk]; [done|].
  destruct Hf as (Hn & Hc & _). simpl in Hn, Hc.
  apply (closed_ext v); [done|done| |done].
  rewrite Hc. destruct Hr as [->|Hr]; [|by right].
  by destruct Hv as (_ & _ & H3).
Qed.

Lemma toggle_pass_spec i v r t u :
  toggle_pass i v = Some (r, t, u) ->
  toggle i v = _update r t u /\ r = currentId u /\ (closed v -> closed u).
Proof.
  unfold toggle_pass, toggle.
  destruct (nodeData_get v (to_key i)) as [l|]; [|done].
  destruct (_children (store v l)) as [cs|]; [|done].
  intros [= <- <- <-]. split; [done|]. split; [done|].
  intros Hv. apply (closed_ext v); [done|done|by destruct Hv as (_ & _ & H3)|].
  simpl. split.
  - intros l'. destruct (decide (l' = l)) as [->|Hne].
    + by rewrite fn_lookup_insert.
    + by rewrite fn_lookup_insert_ne.
  - intros l' _. destruct (decide (l' = l)) as [->|Hne].
    + by rewrite fn_lookup_insert.
    + by rewrite fn_lookup_insert_ne.
Qed.

Lemma toggle_closed i v : closed v -> after closed (toggle i v).
Proof.
  intros Hv. destruct (toggle_pass i v) as [[[r t] u]|] eqn:E.
  - apply toggle_pass_spec in E as (-> & -> & Hu).
    apply _update_closed; auto.
  - revert E. unfold toggle_pass, toggle.
    destruct (nodeData_get v (to_key i)) as [l|]; [|done].
    destruct (_children (store v l)) as [cs|]; [done|]. intros _.
    case_decide; [|done]. simpl.
    apply (closed_ext v); [done|done| |apply keeps_refl].
    by destruct Hv as (_ & _ & H3).
Qed.

(** The state in which the callback of a fetch calls [toggle] again. *)
Lemma resolve_closed i cs v u :
  closed v -> (forall c, c ∈ cs -> truthy (id (store v c)) = true) ->
  mark_fetched i cs v = Done u ->
  closed (forEach_register cs u).
Proof.
  intros (H1 & H2 & H3) Hadm. unfold mark_fetched.
  destruct (nodeData_get v (to_key i)) as [l|]; [|done].
  intros [= <-].
  set (u := set_store (<[l := set__children (Some cs) (store v l)]> (store v)) v).
  assert (Hid : forall x, id (store u x) = id (store v x)).
  { intros x. simpl. destruct (decide (x = l)) as [->|Hne].
    - by rewrite fn_lookup_insert.
    - by rewrite fn_lookup_insert_ne. }
  assert (Hold : forall x, registered_id v x ->
                           registered_id (forEach_register cs u) x).
  { intros x [Ht Hk]. unfold registered_id.
    rewrite forEach_register_store, Hid. split; [done|].
    by apply forEach_register_keeps. }
  assert (Hnew : forall c, c ∈ cs -> registered_id (forEach_register cs u) c).
  { intros c Hc. unfold registered_id. rewrite forEach_register_store.
    split; [rewrite Hid; by apply Hadm|].
    by apply forEach_register_registers. }
  split; [|split].
  - intros k x [Hx|Hx]%forEach_register_inv; [|by apply Hnew].
    apply Hold. by apply (H1 k).
  - intros x cs' c. rewrite forEach_register_store. simpl.
    destruct (decide (x = l)) as [->|Hne].
    + rewrite fn_lookup_insert. simpl. intros [= <-]. apply Hnew.
    + rewrite fn_lookup_insert_ne by done. intros Hx Hc.
      apply Hold. by apply (H2 x cs').
  - rewrite forEach_register_currentId. simpl.
    destruct H3 as [?|H3]; [by left|right].
    by apply forEach_register_keeps.
Qed.

(** The pass of a call is what the call does, it is a pass of the current
    root, and it starts in a closed state. *)
Lemma pass_of_spec c v r t u :
  closed v -> admissible c v -> pass_of c v = Some (r, t, u) ->
  exec c v = _update r t u /\ r = currentId u /\ closed u.
Proof.
  intros Hv Hadm. pose proof Hv as (H1 & H2 & H3).
  destruct c as [e| |[r0|]|i|i [cs|]| |nw nh]; simpl; try done.
  - intros [= <- <- <-]. split; [done|]. split; [done|].
    simpl in Hadm.
    assert (Hkeep : forall x, registered_id v x ->
              registered_id
                (set_currentId (id (store v r0))
                   (set_nodeData (<[to_key (id (store v r0)) := r0]> (nodeData v)) v))
                x).
    { intros x [Ht [y Hk]]. split; [done|]. simpl.
      destruct (decide (to_key (id (store v r0)) = to_key (id (store v x))))
        as [E|E].
      - rewrite <- E. rewrite lookup_insert_eq. eauto.
      - rewrite lookup_insert_ne by done. eauto. }
    split; [|split].
    + intros k l. simpl.
      destruct (decide (to_key (id (store v r0)) = k)) as [<-|E].
      * rewrite lookup_insert_eq. intros [= <-]. split; [done|]. simpl.
        rewrite lookup_insert_eq. eauto.
      * rewrite lookup_insert_ne by done. intros Hl. apply Hkeep.
        by apply (H1 k).
    + intros l cs c Hl Hc. apply Hkeep. by apply (H2 l cs).
    + right. simpl. rewrite lookup_insert_eq. eauto.
  - intros E. by apply toggle_pass_spec in E as (? & ? & ?); auto.
  - unfold toggle_then. destruct (mark_fetched i cs v) as [u1| |] eqn:Em;
      try done.
    intros E. simpl then_.
    pose proof (resolve_closed i cs v u1 Hv Hadm Em) as Hu.
    by apply toggle_pass_spec in E as (? & ? & ?); auto.
  - unfold redraw. destruct (truthy (currentId v)); [|done].
    by intros [= <- <- <-].
  - intros [= <- <- <-]. split; [done|]. split; [done|].
    apply (closed_ext v); [done|done|done|apply keeps_refl].
Qed.

Lemma exec_closed c v : closed v -> admissible c v -> after closed (exec c v).
Proof.
  intros Hv Hadm.
  destruct (pass_of c v) as [[[r t] u]|] eqn:E.
  - apply pass_of_spec in E as (-> & -> & Hu); [|done|done].
    apply _update_closed; auto.
  - destruct c as [e| |[r0|]|i|i [cs|]| |nw nh]; simpl in *; try done.
    + by apply toggle_closed.
    + unfold toggle_then. destruct (mark_fetched i cs v) as [u1| |] eqn:Em;
        simpl then_.
      * apply toggle_closed. by eapply resolve_closed.
      * revert Em. unfold mark_fetched.
        destruct (nodeData_get v (to_key i)); [done|]. by intros [= <-].
      * done.
    + unfold redraw. by destruct (truthy (currentId v)).
Qed.

Lemma reachable_closed v : reachable prune_nodes tree_xy fuel v -> closed v.
Proof.
  induction 1 as [c h Hh|v w c _ IH Hadm Hw].
  - split; [|split].
    + intros k l. simpl. by rewrite lookup_empty.
    + intros l cs c0. simpl. by rewrite Hh.
    + by left.
  - pose proof (exec_closed c v IH Hadm) as Hc.
    destruct Hw as [Hw|Hw]; by rewrite Hw in Hc.
Qed.

Lemma walk_node f h root ns n :
  D3.hierarchy f h [root] = Some ns -> n ∈ ns ->
  n = root \/ exists p, n ∈ kids (h p).
Proof.
  intros Hw%hierarchy_links Hn. rewrite Hw in Hn.
  apply elem_of_app in Hn as [Hn|Hn].
  - left. by apply list_elem_of_singleton in Hn.
  - right. apply list_elem_of_In, in_map_iff in Hn as ([p c] & <- & Hd).
    unfold D3.links in Hd. apply in_flat_map in Hd as (p' & _ & Hd).
    apply in_map_iff in Hd as (c' & [= <- <-] & Hc).
    exists p'. by apply list_elem_of_In.
Qed.

Lemma link_ends h ns d :
  d ∈ D3.links h ns -> d.1 ∈ ns /\ d.2 ∈ kids (h d.1).
Proof.
  intros Hd%list_elem_of_In. unfold D3.links in Hd.
  apply in_flat_map in Hd as (p & Hp & Hd).
  apply in_map_iff in Hd as (c & <- & Hc).
  split; by apply list_elem_of_In.
Qed.

(** In a closed state, every node of the tree that a pass of the current
    root lays out is registered. *)
Lemma closed_walk u ns n :
  closed u -> pruned_walk prune_nodes fuel (currentId u) u = Some ns ->
  n ∈ ns ->
  let pr := prune_nodes (store u) (nodeData_get u (to_key (currentId u))) in
  truthy (id (pr.1 n)) = true /\ is_Some (nodeData u !! to_key (id (pr.1 n))).
Proof.
  intros (H1 & H2 & H3) Hw Hn pr. unfold pruned_walk in Hw. fold pr in Hw.
  destruct (Hprunes (store u) (nodeData_get u (to_key (currentId u))))
    as [Hroot Hpr].
  fold pr in Hroot, Hpr.
  assert (Hreg : registered_id u n).
  { destruct pr.2 as [root|] eqn:Er.
    2:{ injection Hw as <-. by apply elem_of_nil in Hn. }
    destruct (walk_node _ _ _ _ _ Hw Hn) as [->|[p Hp]].
    - destruct Hroot as [?|Hroot]; [done|].
      unfold nodeData_get in Hroot.
      destruct (nodeData u !! to_key (currentId u)) as [l|] eqn:El.
      + injection Hroot as ->. by apply (H1 _ _ El).
      + destruct H3 as [E|[? ?]]; [|done]. rewrite E in Hroot. done.
    - destruct (Hpr p) as (_ & _ & Hk).
      destruct (Hk n Hp) as (cs & Hcs & Hin). by apply (H2 p cs). }
  destruct (Hpr n) as (-> & _). exact Hreg.
Qed.

Lemma forEach_register_rendered cs v :
  g_nodes (forEach_register cs v) = g_nodes v /\
  path_links (forEach_register cs v) = path_links v.
Proof.
  revert v. induction cs as [|c cs IH]; intros v; simpl; [done|].
  by destruct (IH (set_nodeData (<[to_key (id (store v c)) := c]> (nodeData v)) v))
    as [-> ->].
Qed.

Lemma toggle_pass_None i v :
  toggle_pass i v = None ->
  exists w, (toggle i v = Done w \/ toggle i v = Thrown w) /\
            g_nodes w = g_nodes v /\ path_links w = path_links v.
Proof.
  unfold toggle_pass, toggle.
  destruct (nodeData_get v (to_key i)) as [l|]; [|eauto].
  destruct (_children (store v l)) as [cs|]; [done|]. intros _.
  case_decide; eauto.
Qed.

(** A call that runs no render pass comes back, and leaves the rendered
    elements as they are. *)
Lemma pass_of_None c v :
  pass_of c v = None ->
  exists w, (exec c v = Done w \/ exec c v = Thrown w) /\
            g_nodes w = g_nodes v /\ path_links w = path_links v.
Proof.
  destruct c as [e| |[r0|]|i|i [cs|]| |nw nh]; simpl; try done; eauto.
  - apply toggle_pass_None.
  - unfold toggle_then, mark_fetched.
    destruct (nodeData_get v (to_key i)) as [l|]; [|eauto]. simpl then_.
    intros (w & Hw & Hg & Hl)%toggle_pass_None.
    exists w. split; [done|].
    destruct (forEach_register_rendered cs
                (set_store (<[l := set__children (Some cs) (store v l)]> (store v)) v))
      as [Eg El].
    rewrite Hg, Hl, Eg, El. done.
  - unfold redraw. destruct (truthy (currentId v)); [done|eauto].
Qed.

(** C7, amended: take a controller constructed over objects without fetched
    children and then used through its calls and the resolutions of its
    fetches ([reload()] not among them), a host whose [prune-nodes] prunes,
    and roots and fetched children with truthy identifiers.  A call either
    runs no render pass and leaves the rendered elements alone, or it is the
    render pass [_update(r, t)] from a state [u] in which, before the layout
    is computed, every node of the tree returned by [prune-nodes] has a
    truthy identifier whose key is in the registry; so both ends of every
    parent-child edge of that tree are in the registry. *)
Theorem edges_registered (v : view) (c : call) :
  reachable prune_nodes tree_xy fuel v ->
  admissible c v ->
  (pass_of c v = None ->
   exists w, (exec c v = Done w \/ exec c v = Thrown w) /\
             g_nodes w = g_nodes v /\ path_links w = path_links v) /\
  (forall (r t : value) (u : view) (ns : list loc),
     pass_of c v = Some (r, t, u) ->
     pruned_walk prune_nodes fuel r u = Some ns ->
     let pr := prune_nodes (store u) (nodeData_get u (to_key r)) in
     exec c v = _update r t u /\
     (forall n, n ∈ ns ->
        truthy (id (pr.1 n)) = true /\
        is_Some (nodeData u !! to_key (id (pr.1 n)))) /\
     (forall d, d ∈ D3.links pr.1 ns ->
        is_Some (nodeData u !! to_key (id (pr.1 d.1))) /\
        is_Some (nodeData u !! to_key (id (pr.1 d.2))))).
Proof.
  intros Hv%reachable_closed Hadm. split; [apply pass_of_None|].
  intros r t u ns Hp Hw pr.
  apply pass_of_spec in Hp as (He & -> & Hu); [|done|done].
  split; [exact He|].
  assert (Hn : forall n, n ∈ ns ->
             truthy (id (pr.1 n)) = true /\
             is_Some (nodeData u !! to_key (id (pr.1 n)))).
  { intros n Hn. by apply (closed_walk u ns n). }
  split; [exact Hn|].
  intros d Hd. apply link_ends in Hd as [Hd1 Hd2].
  destruct (Hprunes (store u) (nodeData_get u (to_key (currentId u))))
    as [_ Hpr]. fold pr in Hpr.
  split; [by apply Hn|].
  destruct (Hpr d.1) as (_ & _ & Hk). destruct (Hk d.2 Hd2) as (cs & Hcs & Hin).
  destruct Hu as (_ & H2 & _). destruct (Hpr d.2) as (-> & _).
  by apply (H2 d.1 cs).
Qed.

End Closed.

(** The host of the scenarios prunes, and its objects start without
    fetched children. *)
Lemma prune_opened_prunes : prunes Scenario.prune_opened.
Proof.
  intros h root. split; [by right|]. intros l. simpl.
  split; [done|]. split; [done|]. intros c.
  destruct (isOpened (h l)) as [[|]|]; simpl; try (by intros ?%elem_of_nil).
  destruct (_children (h l)) as [cs|]; simpl; [eauto|by intros ?%elem_of_nil].
Qed.

Lemma objects_unfetched l : _children (Scenario.objects l) = None.
Proof. unfold Scenario.objects. repeat case_match; done. Qed.

Lemma scenario_reachable :
  reachable Scenario.prune_opened Scenario.layout 16 Scenario.opened_A.
Proof.
  apply reachable_call
    with (c := Resolve (VStr "A") (Some [Scenario.b; Scenario.c]))
         (v := Scenario.fetching_A).
  - apply reachable_call with (c := Toggle (VStr "A")) (v := Scenario.rooted_A).
    + apply reachable_call with (c := SetRoot (Some Scenario.a))
                                (v := Scenario.start).
      * unfold Scenario.start, Scenario.registered.
        repeat (eapply reachable_call with (c := On _);
                [|exact I|left; reflexivity]).
        apply reachable_new, objects_unfetched.
      * vm_compute. reflexivity.
      * left. vm_compute. reflexivity.
    + exact I.
    + left. vm_compute. reflexivity.
  - intros c Hc. apply list_elem_of_In in Hc. simpl in Hc.
    destruct Hc as [<-|[<-|[]]]; vm_compute; reflexivity.
  - left. vm_compute. reflexivity.
Qed.

(** Root "A" opened onto "B" and "C", then [resize(50, 50)]: its pass lays
    out the edges A-B and A-C, and finds "A", "B" and "C" registered. *)
Lemma edges_registered_witness :
  let u := set_nodeSize (50, 50) Scenario.opened_A in
  let pr := Scenario.prune_opened (store u) (nodeData_get u (to_key (VStr "A"))) in
  exec Scenario.prune_opened Scenario.layout 16 (Resize 50 50) Scenario.opened_A
  = _update Scenario.prune_opened Scenario.layout 16 (VStr "A") VUndef u /\
  (forall n, n ∈ [Scenario.a; Scenario.b; Scenario.c] ->
     truthy (id (pr.1 n)) = true /\
     is_Some (nodeData u !! to_key (id (pr.1 n)))) /\
  (forall d, d ∈ D3.links pr.1 [Scenario.a; Scenario.b; Scenario.c] ->
     is_Some (nodeData u !! to_key (id (pr.1 d.1))) /\
     is_Some (nodeData u !! to_key (id (pr.1 d.2)))).
Proof.
  intros u pr.
  destruct (edges_registered Scenario.prune_opened Scenario.layout 16
              prune_opened_prunes Scenario.opened_A (Resize 50 50)
              scenario_reachable I) as [_ Hpass].
  apply (Hpass (VStr "A") VUndef u [Scenario.a; Scenario.b; Scenario.c]).
  - vm_compute. reflexivity.
  - vm_compute. reflexivity.
Defined.

(** C7 as stated fails, with the pruning host of the scenarios, in three
    passes in which an edge of the tree that is laid out ends at an
    identifier the registry does not hold.

    [reload()] on the opened root "A", then [setRoot] of the same object:
    the registry was emptied and holds "A" again, the object still has its
    fetched children "B" and "C".

    A fetch for "A" that resolves to [[{}]], then [resize(50, 50)]: the
    child was registered under ["undefined"], and the key function of the
    pass that drew it gave it the identifier 0.

    A root "A" handed to [setRoot] with the children "B" and "C" already
    fetched on it and opened. *)
Lemma edges_unregistered :
  prunes Scenario.prune_opened /\
  (exists u,
     pass_of (SetRoot (Some Scenario.a)) Scenario.reloaded_A
     = Some (VStr "A", VUndef, u) /\
     pruned_walk Scenario.prune_opened 16 (VStr "A") u
     = Some [Scenario.a; Scenario.b; Scenario.c] /\
     D3.links (Scenario.prune_opened (store u) (nodeData_get u "A")).1
              [Scenario.a; Scenario.b; Scenario.c]
     = [(Scenario.a, Scenario.b); (Scenario.a, Scenario.c)] /\
     id (store u Scenario.b) = VStr "B" /\
     id (store u Scenario.c) = VStr "C" /\
     nodeData u !! "B" = None /\ nodeData u !! "C" = None) /\
  (exists u,
     Scenario.run [SetRoot (Some Scenario.a); Toggle (VStr "A");
                   Resolve (VStr "A") (Some [Scenario.anon])] Scenario.start
     = Done Scenario.opened_anon /\
     pass_of (Resize 50 50) Scenario.opened_anon = Some (VStr "A", VUndef, u) /\
     pruned_walk Scenario.prune_opened 16 (VStr "A") u
     = Some [Scenario.a; Scenario.anon] /\
     D3.links (Scenario.prune_opened (store u) (nodeData_get u "A")).1
              [Scenario.a; Scenario.anon]
     = [(Scenario.a, Scenario.anon)] /\
     id (store u Scenario.anon) = VNum 0 /\
     nodeData u !! to_key (VNum 0) = None) /\
  (exists u,
     pass_of (SetRoot (Some Scenario.a)) Scenario.start_attached
     = Some (VStr "A", VUndef, u) /\
     pruned_walk Scenario.prune_opened 16 (VStr "A") u
     = Some [Scenario.a; Scenario.b; Scenario.c] /\
     D3.links (Scenario.prune_opened (store u) (nodeData_get u "A")).1
              [Scenario.a; Scenario.b; Scenario.c]
     = [(Scenario.a, Scenario.b); (Scenario.a, Scenario.c)] /\
     id (store u Scenario.b) = VStr "B" /\
     nodeData u !! "B" = None /\ nodeData u !! "C" = None).
Proof.
  split; [exact prune_opened_prunes|]. split; [|split].
  - eexists. split; [vm_compute; reflexivity|].
    split; [vm_compute; reflexivity|].
    split; [vm_compute; reflexivity|].
    split; [vm_compute; reflexivity|].
    split; [vm_compute; reflexivity|].
    split; vm_compute; reflexivity.
  - eexists. split; [vm_compute; reflexivity|].
    split; [vm_compute; reflexivity|].
    split; [vm_compute; reflexivity|].
    split; [vm_compute; reflexivity|].
    split; vm_compute; reflexivity.
  - eexists. split; [vm_compute; reflexivity|].
    split; [vm_compute; reflexivity|].
    split; [vm_compute; reflexivity|].
    split; [vm_compute; reflexivity|].
    split; vm_compute; reflexivity.
Qed.
